(** * Flow evaluation engine of the decision-tree editor

    A shallow embedding of [src/types/index.ts] (rule evaluation, flow
    reachability, condition discovery) and of the ancestor trace of the
    [useFlowGraph] hook, together with the properties stated about them. *)

From Stdlib Require Import ZArith.
From Stdlib Require Import Floats.SpecFloat.
From stdpp Require Import gmap strings list fin_maps sorting pretty.

Local Open Scope string_scope.
Local Open Scope list_scope.
Local Open Scope stdpp_scope.

(** ** Data model *)

(** A JavaScript number is an IEEE 754 binary64 value.  [spec_float] keeps
    the cases the code can tell apart: signed zeros, infinities, NaN and
    finite values. *)
Definition number := spec_float.

(** The binary64 value of an integer literal such as [25]. *)
Definition numberOfZ (z : Z) : number := binary_normalize 53 1024 z 0 false.

(** [EdgeRule.value : string | number | boolean]. *)
Inductive RuleValue :=
| VString (s : string)
| VNumber (n : number)
| VBoolean (b : bool).

(** [RuleOperator]; [op_other] stands for any string outside the declared
    union, which the [default] branch of [evaluateRule] receives. *)
Inductive RuleOperator :=
| op_is
| op_is_not
| op_greater_than
| op_less_than
| op_other (name : string).

Record EdgeRule := {
  rule_id : string;
  condition : string;
  operator : RuleOperator;
  value : RuleValue
}.

Record FeatureNode := {
  node_id : string;
  label : string;
  description : option string
}.

(** [data?: { rules?: EdgeRule[] }]: both levels are optional. *)
Record EdgeData := { rules : option (list EdgeRule) }.

Record FeatureEdge := {
  edge_id : string;
  source : string;
  target : string;
  data : option EdgeData
}.

(** [SimulationState]: the own properties of a plain object, built by
    [{ ...prev, [condition]: value }] and [delete next[condition]]. *)
Abbreviation SimulationState := (gmap string RuleValue).

(** ** Reading a property of the simulation state *)

(** What [state[key]] can evaluate to: [undefined], an own value, or a member
    inherited from [Object.prototype] (the state is an object literal). *)
Inductive JsValue :=
| JsUndefined
| JsPrim (v : RuleValue)
| JsInherited (member : string).

Definition objectPrototypeMembers : list string :=
  [ "constructor"; "hasOwnProperty"; "isPrototypeOf"; "propertyIsEnumerable";
    "toLocaleString"; "toString"; "valueOf"; "__proto__";
    "__defineGetter__"; "__defineSetter__"; "__lookupGetter__";
    "__lookupSetter__" ].

(** Ordinary [Get]: own properties first, then the prototype. *)
Definition getProperty (state : SimulationState) (key : string) : JsValue :=
  match state !! key with
  | Some v => JsPrim v
  | None =>
      if bool_decide (key ∈ objectPrototypeMembers) then JsInherited key
      else JsUndefined
  end.

Inductive JsType := TUndefined | TString | TNumber | TBoolean | TObject.

(** [typeof]; functions and objects are not told apart, no caller needs it. *)
Definition typeof (v : JsValue) : JsType :=
  match v with
  | JsUndefined => TUndefined
  | JsPrim (VString _) => TString
  | JsPrim (VNumber _) => TNumber
  | JsPrim (VBoolean _) => TBoolean
  | JsInherited _ => TObject
  end.

Definition isType (t u : JsType) : bool :=
  match t, u with
  | TUndefined, TUndefined | TString, TString | TNumber, TNumber
  | TBoolean, TBoolean | TObject, TObject => true
  | _, _ => false
  end.

(** [a === b] for a value read from the state and a rule value. *)
Definition strictEquals (a : JsValue) (b : RuleValue) : bool :=
  match a, b with
  | JsPrim (VString s), VString t => String.eqb s t
  | JsPrim (VNumber x), VNumber y => SFeqb x y
  | JsPrim (VBoolean p), VBoolean q => Bool.eqb p q
  | _, _ => false
  end.

(** [a > b] and [a < b], reached only behind the two [typeof] tests. *)
Definition greaterThan (a : JsValue) (b : RuleValue) : bool :=
  match a, b with
  | JsPrim (VNumber x), VNumber y => SFltb y x
  | _, _ => false
  end.

Definition lessThan (a : JsValue) (b : RuleValue) : bool :=
  match a, b with
  | JsPrim (VNumber x), VNumber y => SFltb x y
  | _, _ => false
  end.

(** ** Rule evaluation *)

Definition evaluateRule (rule : EdgeRule) (state : SimulationState) : bool :=
  let currentValue := getProperty state (condition rule) in
  match currentValue with
  | JsUndefined => true
  | _ =>
      match operator rule with
      | op_is => strictEquals currentValue (value rule)
      | op_is_not => negb (strictEquals currentValue (value rule))
      | op_greater_than =>
          isType (typeof currentValue) TNumber
          && isType (typeof (JsPrim (value rule))) TNumber
          && greaterThan currentValue (value rule)
      | op_less_than =>
          isType (typeof currentValue) TNumber
          && isType (typeof (JsPrim (value rule))) TNumber
          && lessThan currentValue (value rule)
      | op_other _ => true
      end
  end.

(** [edge.data?.rules || []] *)
Definition edgeRules (edge : FeatureEdge) : list EdgeRule :=
  match data edge with
  | Some d => match rules d with Some rs => rs | None => [] end
  | None => []
  end.

Definition evaluateEdgeRules (edge : FeatureEdge) (state : SimulationState) : bool :=
  let rules := edgeRules edge in
  if Nat.eqb (length rules) 0 then true
  else forallb (fun rule => evaluateRule rule state) rules.

(** ** Flow evaluation *)

Record FlowEvaluationResult := {
  reachableNodes : gset string;
  validEdges : gmap string bool
}.

(** [new Set(edges.map(e => e.target))] *)
Definition nodesWithIncoming (edges : list FeatureEdge) : gset string :=
  list_to_set (target <$> edges).

(** [nodes.filter(n => !nodesWithIncoming.has(n.id))] *)
Definition rootNodes (nodes : list FeatureNode) (edges : list FeatureEdge)
  : list FeatureNode :=
  filter (fun n => node_id n ∉ nodesWithIncoming edges) nodes.

(** One round of the loop that fills an adjacency map: create the bucket of
    [key edge] when it is missing, then push the edge on it. *)
Definition pushEdge (key : FeatureEdge -> string)
    (m : gmap string (list FeatureEdge)) (edge : FeatureEdge)
  : gmap string (list FeatureEdge) :=
  let m1 := if bool_decide (is_Some (m !! key edge)) then m
            else <[key edge := []]> m in
  alter (fun bucket => bucket ++ [edge]) (key edge) m1.

Definition adjacency (key : FeatureEdge -> string) (edges : list FeatureEdge)
  : gmap string (list FeatureEdge) :=
  foldl (pushEdge key) ∅ edges.

Definition outgoingEdges := adjacency source.

(** [m.get(nodeId) || []] *)
Definition bucket (m : gmap string (list FeatureEdge)) (nodeId : string)
  : list FeatureEdge :=
  default [] (m !! nodeId).

(** The variables the breadth-first loop of [evaluateFlow] mutates. *)
Record FlowState := {
  reachable : gset string;
  valid : gmap string bool;
  queue : list string;
  visited : gset string
}.

(** Body of [for (const edge of nodeEdges)]. *)
Definition processEdge (state : SimulationState) (st : FlowState)
    (edge : FeatureEdge) : FlowState :=
  let sourceReachable := bool_decide (source edge ∈ reachable st) in
  let rulesPass := evaluateEdgeRules edge state in
  let edgeValid := sourceReachable && rulesPass in
  let valid1 := <[edge_id edge := edgeValid]> (valid st) in
  if edgeValid then
    {| reachable := reachable st ∪ {[target edge]};
       valid := valid1;
       queue := queue st ++ [target edge];
       visited := visited st |}
  else
    {| reachable := reachable st;
       valid := valid1;
       queue := queue st;
       visited := visited st |}.

(** The node the next iteration would expand, if any: the head of the queue
    when it has not been visited yet. *)
Definition expands (st : FlowState) : option string :=
  match queue st with
  | nodeId :: _ => if bool_decide (nodeId ∈ visited st) then None else Some nodeId
  | [] => None
  end.

(** One iteration of [while (queue.length > 0)]; [None] when the loop test
    fails. *)
Definition iteration (state : SimulationState)
    (out : gmap string (list FeatureEdge)) (st : FlowState) : option FlowState :=
  match queue st with
  | [] => None
  | nodeId :: rest =>
      let st1 := {| reachable := reachable st; valid := valid st;
                    queue := rest; visited := visited st |} in
      if bool_decide (nodeId ∈ visited st) then Some st1
      else
        let st2 := {| reachable := reachable st; valid := valid st;
                      queue := rest; visited := visited st ∪ {[nodeId]} |} in
        Some (foldl (processEdge state) st2 (bucket out nodeId))
  end.

(** The loop, with a bound on the number of iterations: [None] means the
    bound was reached with a non-empty queue. *)
Fixpoint bfs (fuel : nat) (state : SimulationState)
    (out : gmap string (list FeatureEdge)) (st : FlowState) : option FlowState :=
  match iteration state out st with
  | None => Some st
  | Some st' =>
      match fuel with
      | O => None
      | S fuel' => bfs fuel' state out st'
      end
  end.

(** The state after exactly [k] iterations, when the loop runs that long. *)
Fixpoint run (k : nat) (state : SimulationState)
    (out : gmap string (list FeatureEdge)) (st : FlowState) : option FlowState :=
  match k with
  | O => Some st
  | S k' =>
      match iteration state out st with
      | None => None
      | Some st' => run k' state out st'
      end
  end.

(** [for (const edge of edges) if (!validEdges.has(edge.id)) ...] *)
Definition markUnvisited (edges : list FeatureEdge) (valid : gmap string bool)
  : gmap string bool :=
  foldl (fun v edge =>
           if bool_decide (is_Some (v !! edge_id edge)) then v
           else <[edge_id edge := false]> v) valid edges.

Definition initialFlowState (nodes : list FeatureNode) (edges : list FeatureEdge)
  : FlowState :=
  let roots := rootNodes nodes edges in
  {| reachable := foldl (fun r root => r ∪ {[node_id root]}) ∅ roots;
     valid := ∅;
     queue := node_id <$> roots;
     visited := ∅ |}.

(** The loop is given [length nodes + length edges] iterations, more than
    it ever makes; [None] would mean that it had not finished by then. *)
Definition evaluateFlow (nodes : list FeatureNode) (edges : list FeatureEdge)
    (state : SimulationState) : option FlowEvaluationResult :=
  match bfs (length nodes + length edges) state (outgoingEdges edges)
            (initialFlowState nodes edges) with
  | Some st => Some {| reachableNodes := reachable st;
                       validEdges := markUnvisited edges (valid st) |}
  | None => None
  end.

(** Small graphs used in the examples. *)
Definition mkNode (i : string) : FeatureNode :=
  {| node_id := i; label := i; description := None |}.

Definition mkEdge (i s t : string) (rs : list EdgeRule) : FeatureEdge :=
  {| edge_id := i; source := s; target := t;
     data := Some {| rules := Some rs |} |}.

(** ** Ancestor trace *)

Record TraceResult := {
  highlightedNodes : gset string;
  highlightedEdges : gset string
}.

Definition incomingEdges := adjacency target.

(** The variables the backward loop mutates. *)
Record TraceState := {
  hNodes : gset string;
  hEdges : gset string;
  tqueue : list string
}.

(** Body of [for (const edge of incoming)]. *)
Definition traceEdge (st : TraceState) (edge : FeatureEdge) : TraceState :=
  let hEdges1 := hEdges st ∪ {[edge_id edge]} in
  if bool_decide (source edge ∈ hNodes st) then
    {| hNodes := hNodes st; hEdges := hEdges1; tqueue := tqueue st |}
  else
    {| hNodes := hNodes st ∪ {[source edge]};
       hEdges := hEdges1;
       tqueue := tqueue st ++ [source edge] |}.

Definition traceIteration (inc : gmap string (list FeatureEdge))
    (st : TraceState) : option TraceState :=
  match tqueue st with
  | [] => None
  | nodeId :: rest =>
      Some (foldl traceEdge
              {| hNodes := hNodes st; hEdges := hEdges st; tqueue := rest |}
              (bucket inc nodeId))
  end.

Fixpoint traceLoop (fuel : nat) (inc : gmap string (list FeatureEdge))
    (st : TraceState) : option TraceState :=
  match traceIteration inc st with
  | None => Some st
  | Some st' =>
      match fuel with
      | O => None
      | S fuel' => traceLoop fuel' inc st'
      end
  end.

(** The computation behind the guard of [traceHighlight]: from building
    [incomingEdges] to the returned pair of sets.  One iteration per queued
    id is needed, and at most [S (length edges)] ids are ever queued. *)
Definition traceAncestors (focusNodeId : string) (edges : list FeatureEdge)
  : option TraceResult :=
  match traceLoop (S (length edges)) (incomingEdges edges)
          {| hNodes := {[focusNodeId]}; hEdges := ∅; tqueue := [focusNodeId] |} with
  | Some st => Some {| highlightedNodes := hNodes st;
                       highlightedEdges := hEdges st |}
  | None => None
  end.

(** [!hoveredNodeId]: [null] and the empty string are falsy. *)
Definition falsy (hoveredNodeId : option string) : bool :=
  match hoveredNodeId with
  | None => true
  | Some s => String.eqb s ""
  end.

Definition traceHighlight (isTraceMode : bool) (hoveredNodeId : option string)
    (edges : list FeatureEdge) : option TraceResult :=
  if negb isTraceMode || falsy hoveredNodeId then
    Some {| highlightedNodes := ∅; highlightedEdges := ∅ |}
  else
    match hoveredNodeId with
    | Some focus => traceAncestors focus edges
    | None => Some {| highlightedNodes := ∅; highlightedEdges := ∅ |}
    end.

(** The relation the trace closes over: [a] has an edge to [b]. *)
Definition edgeStep (edges : list FeatureEdge) (a b : string) : Prop :=
  exists e, e ∈ edges /\ source e = a /\ target e = b.

(** An edge list with the rule data of every edge removed. *)
Definition stripData (edge : FeatureEdge) : FeatureEdge :=
  {| edge_id := edge_id edge; source := source edge; target := target edge;
     data := None |}.

(** ** Condition discovery *)

Inductive ConditionType := type_boolean | type_enum | type_number.

Record ConditionSchema := {
  name : string;
  type : ConditionType;
  options : list RuleValue
}.

Definition isBoolean (v : RuleValue) : bool :=
  match v with VBoolean _ => true | _ => false end.

Definition isNumber (v : RuleValue) : bool :=
  match v with VNumber _ => true | _ => false end.

Definition isNaN (n : number) : bool :=
  match n with S754_nan => true | _ => false end.

(** SameValueZero, the key equality of [Set] and [Map]. *)
Definition sameValueZero (a b : RuleValue) : bool :=
  match a, b with
  | VString s, VString t => String.eqb s t
  | VNumber x, VNumber y => SFeqb x y || (isNaN x && isNaN y)
  | VBoolean p, VBoolean q => Bool.eqb p q
  | _, _ => false
  end.

(** [Set.prototype.add] stores [-0] as [+0]. *)
Definition normalizeZero (v : RuleValue) : RuleValue :=
  match v with
  | VNumber (S754_zero _) => VNumber (S754_zero false)
  | _ => v
  end.

(** [set.add(v)] on a [Set] kept in insertion order. *)
Definition setAdd (s : list RuleValue) (v : RuleValue) : list RuleValue :=
  if existsb (fun x => sameValueZero x v) s then s else s ++ [normalizeZero v].

(** The [Map<string, Set<...>>] of [discoverConditions], in insertion order. *)
Abbreviation ConditionMap := (list (string * list RuleValue)).

Definition mapHas (m : ConditionMap) (key : string) : bool :=
  existsb (fun entry => String.eqb (fst entry) key) m.

(** [m.get(key)!.add(v)] *)
Definition mapAdd (m : ConditionMap) (key : string) (v : RuleValue) : ConditionMap :=
  (fun entry => if String.eqb (fst entry) key
                then (fst entry, setAdd (snd entry) v) else entry) <$> m.

(** Body of [for (const rule of rules)]. *)
Definition addRule (m : ConditionMap) (rule : EdgeRule) : ConditionMap :=
  let m1 := if mapHas m (condition rule) then m
            else m ++ [(condition rule, [])] in
  mapAdd m1 (condition rule) (value rule).

Definition conditionMap (edges : list FeatureEdge) : ConditionMap :=
  foldl (fun m edge => foldl addRule m (edgeRules edge)) [] edges.

Definition inferType (valueArray : list RuleValue) : ConditionType :=
  if forallb isBoolean valueArray then type_boolean
  else if forallb isNumber valueArray then type_number
  else type_enum.

(** [Array.prototype.sort(compare)]: a stable sort; an element moves behind
    another only when the comparator returns a positive number. *)
Fixpoint insertBy {A} (compare : A -> A -> Z) (x : A) (l : list A) : list A :=
  match l with
  | [] => [x]
  | y :: l' =>
      if (compare x y <=? 0)%Z then x :: y :: l'
      else y :: insertBy compare x l'
  end.

Definition sortBy {A} (compare : A -> A -> Z) (l : list A) : list A :=
  foldr (insertBy compare) [] l.

(** A comparator that orders its arguments like a total preorder, the
    condition under which [sort] has a defined result. *)
Definition consistentComparator (compare : string -> string -> Z) : Prop :=
  (forall a b, (0 < compare a b)%Z -> (compare b a <= 0)%Z)
  /\ (forall a b c, (compare a b <= 0)%Z -> (compare b c <= 0)%Z ->
                    (compare a c <= 0)%Z).

Section Discover.

(** [String.prototype.localeCompare] and [Number::toString] belong to the
    platform. *)
Variable localeCompare : string -> string -> Z.
Variable numberToString : number -> string.

(** [String(v)] *)
Definition toString (v : RuleValue) : string :=
  match v with
  | VString s => s
  | VNumber n => numberToString n
  | VBoolean true => "true"
  | VBoolean false => "false"
  end.

Definition compareValues (a b : RuleValue) : Z :=
  localeCompare (toString a) (toString b).

Definition compareNames (a b : ConditionSchema) : Z :=
  localeCompare (name a) (name b).

Definition schemaOf (entry : string * list RuleValue) : ConditionSchema :=
  let valueArray := snd entry in
  {| name := fst entry;
     type := inferType valueArray;
     options := sortBy compareValues valueArray |}.

Definition discoverConditions (edges : list FeatureEdge) : list ConditionSchema :=
  sortBy compareNames (schemaOf <$> conditionMap edges).

End Discover.

(** Code-unit order on strings, one admissible [localeCompare]. *)
Definition codeUnitCompare (a b : string) : Z :=
  match String.compare a b with
  | Lt => (-1)%Z
  | Eq => 0%Z
  | Gt => 1%Z
  end.

(** The integer a finite number denotes, when it denotes one. *)
Definition integerValue (n : number) : option Z :=
  match n with
  | S754_zero _ => Some 0%Z
  | S754_finite s m (Zneg k) =>
      let d := Z.pow 2 (Zpos k) in
      if Z.eqb (Z.modulo (Zpos m) d) 0
      then Some (cond_Zopp s (Z.div (Zpos m) d)) else None
  | S754_finite s m e => Some (cond_Zopp s (Z.mul (Zpos m) (Z.pow 2 e)))
  | _ => None
  end.

(** [Number::toString] on NaN, the infinities and the integers of magnitude
    at most 2^53, which print as their exact decimal digits; [other] decides
    the remaining numbers. *)
Definition integerToString (other : number -> string) (n : number) : string :=
  match n with
  | S754_nan => "NaN"
  | S754_infinity s => if s then "-Infinity" else "Infinity"
  | _ => match integerValue n with
         | Some z => if (Z.abs z <=? 2 ^ 53)%Z then pretty z else other n
         | None => other n
         end
  end.

Definition ageRule (i : string) (v : RuleValue) : EdgeRule :=
  {| rule_id := i; condition := "age"; operator := op_is; value := v |}.

Definition ageEdges : list FeatureEdge :=
  [ mkEdge "e1" "A" "B" [ageRule "r1" (VNumber (numberOfZ 30));
                         ageRule "r2" (VNumber (numberOfZ 25))];
    mkEdge "e2" "B" "C" [ageRule "r3" (VString "unknown")] ].

(** ** Specification-side notions *)

(** Strict equality as the claims word it: same type and same value, numbers
    compared as IEEE 754 values. *)
Inductive StrictlyEqual : RuleValue -> RuleValue -> Prop :=
| se_string s : StrictlyEqual (VString s) (VString s)
| se_boolean b : StrictlyEqual (VBoolean b) (VBoolean b)
| se_number x y : SFeqb x y = true -> StrictlyEqual (VNumber x) (VNumber y).


(** ** Notions used to state the flow properties *)

Definition rootIds (nodes : list FeatureNode) (edges : list FeatureEdge)
  : gset string :=
  list_to_set (node_id <$> rootNodes nodes edges).

(** The edges of a list whose rules the context satisfies. *)
Definition passing (state : SimulationState) (edges : list FeatureEdge)
  : list FeatureEdge :=
  filter (fun e => evaluateEdgeRules e state = true) edges.

(** Bound on the iterations the loop still has to make: queued ids plus
    edges whose source has not been expanded. *)
Definition flowMeasure (edges : list FeatureEdge) (st : FlowState) : nat :=
  length (queue st) + length (filter (fun e => source e ∉ visited st) edges).

(** What holds of the loop variables between two iterations. *)
Record FlowInv (nodes : list FeatureNode) (edges : list FeatureEdge)
    (state : SimulationState) (st : FlowState) : Prop := {
  inv_queue : forall n, n ∈ queue st -> n ∈ reachable st;
  inv_visited : forall n, n ∈ visited st -> n ∈ reachable st;
  inv_frontier : forall n, n ∈ reachable st -> n ∈ visited st \/ n ∈ queue st;
  inv_reach : forall n, n ∈ reachable st <->
      n ∈ rootIds nodes edges
      \/ exists e, e ∈ edges /\ source e ∈ visited st
                  /\ evaluateEdgeRules e state = true /\ target e = n;
  inv_dom : forall i, is_Some (valid st !! i) ->
      exists e, e ∈ edges /\ edge_id e = i /\ source e ∈ visited st
}.

(** With unique edge ids, the entry of an edge is decided by its source
    alone. *)
Definition ValidInv (edges : list FeatureEdge) (state : SimulationState)
    (st : FlowState) : Prop :=
  forall e, e ∈ edges ->
    valid st !! edge_id e
      = if decide (source e ∈ visited st) then Some (evaluateEdgeRules e state)
        else None.

(** Targets of the edges that a validity map sends to [true]. *)
Definition validTargets (edges : list FeatureEdge) (validEdges : gmap string bool)
  : gset string :=
  list_to_set
    (target <$> filter (fun e => validEdges !! edge_id e = Some true) edges).

(** The two-edge graph in which both edges carry the id ["e"]. *)
Definition roleRule (v : string) : EdgeRule :=
  {| rule_id := "r1"; condition := "role"; operator := op_is; value := VString v |}.

Definition sharedIdNodes : list FeatureNode := [mkNode "A"; mkNode "B"; mkNode "C"].

Definition sharedIdEdges : list FeatureEdge :=
  [mkEdge "e" "A" "B" []; mkEdge "e" "A" "C" [roleRule "admin"]].

Definition guestState : SimulationState := {[ "role" := VString "guest" ]}.

(** The three-node cycle. *)
Definition cycleNodes : list FeatureNode := [mkNode "A"; mkNode "B"; mkNode "C"].

Definition cycleEdges : list FeatureEdge :=
  [mkEdge "e1" "A" "B" []; mkEdge "e2" "B" "C" []; mkEdge "e3" "C" "A" []].

(** An edge with both optional levels of [data] filled in. *)
Definition withRuleList (edge : FeatureEdge) : FeatureEdge :=
  {| edge_id := edge_id edge; source := source edge; target := target edge;
     data := Some {| rules := Some (edgeRules edge) |} |}.

(** A gate: A -> B passes only for the role ["admin"]. *)
Definition gateNodes : list FeatureNode := [mkNode "A"; mkNode "B"].

Definition gateEdges : list FeatureEdge := [mkEdge "e1" "A" "B" [roleRule "admin"]].

Definition adminState : SimulationState := {[ "role" := VString "admin" ]}.

(** Edges without [data], and with [data] but without [rules]. *)
Definition bareEdge (i s t : string) : FeatureEdge :=
  {| edge_id := i; source := s; target := t; data := None |}.

Definition emptyDataEdge (i s t : string) : FeatureEdge :=
  {| edge_id := i; source := s; target := t; data := Some {| rules := None |} |}.

(** ** Notions used to state the trace properties *)

(** The ids of [l] that are not in [seen], each once, in order of appearance:
    what a round of the inner loop appends to the queue. *)
Fixpoint fresh (seen : gset string) (l : list string) : list string :=
  match l with
  | [] => []
  | x :: l' =>
      if decide (x ∈ seen) then fresh seen l'
      else x :: fresh (seen ∪ {[x]}) l'
  end.

Definition sourcesOf (edges : list FeatureEdge) : gset string :=
  list_to_set (source <$> edges).

(** Queued ids plus sources that are not highlighted yet. *)
Definition traceMeasure (edges : list FeatureEdge) (st : TraceState) : nat :=
  length (tqueue st) + size (sourcesOf edges ∖ hNodes st).

Record TraceInv (focus : string) (edges : list FeatureEdge)
    (st : TraceState) : Prop := {
  t_focus : focus ∈ hNodes st;
  t_sound : forall n, n ∈ hNodes st -> rtc (edgeStep edges) n focus;
  t_queue : forall n, n ∈ tqueue st -> n ∈ hNodes st;
  t_closed : forall e, e ∈ edges -> target e ∈ hNodes st ->
      target e ∉ tqueue st ->
      source e ∈ hNodes st /\ edge_id e ∈ hEdges st;
  t_edges : forall i, i ∈ hEdges st ->
      exists e, e ∈ edges /\ edge_id e = i /\ target e ∈ hNodes st
}.

(** The chain A -> B -> C -> D; the middle edge carries a rule. *)
Definition chainNodes : list FeatureNode :=
  [mkNode "A"; mkNode "B"; mkNode "C"; mkNode "D"].

Definition chainEdges : list FeatureEdge :=
  [mkEdge "e1" "A" "B" []; mkEdge "e2" "B" "C" [roleRule "admin"];
   mkEdge "e3" "C" "D" []].

(** ** Notions used to state the discovery properties *)

(** Every rule of every edge, in the order the loops visit them. *)
Definition allRules (edges : list FeatureEdge) : list EdgeRule :=
  concat (edgeRules <$> edges).

(** The values a list of rules gives to one condition. *)
Definition ruleValues (rs : list EdgeRule) (c : string) : list RuleValue :=
  value <$> filter (fun r => condition r = c) rs.

Definition observedValues (edges : list FeatureEdge) (c : string)
  : list RuleValue :=
  ruleValues (allRules edges) c.

(** The map the two loops of [discoverConditions] build, in closed form:
    the condition names in order of first appearance, each with the set of
    its values. *)
Definition canonMap (rs : list EdgeRule) : ConditionMap :=
  (fun c => (c, foldl setAdd [] (ruleValues rs c)))
    <$> fresh ∅ (condition <$> rs).

(** No two members are the same value for [Set]. *)
Inductive Distinct : list RuleValue -> Prop :=
| Distinct_nil : Distinct []
| Distinct_cons x l :
    (forall y, y ∈ l -> sameValueZero x y = false) ->
    Distinct l -> Distinct (x :: l).

(** The order a comparator induces: [a] may stay in front of [b]. *)
Definition leBy {A} (compare : A -> A -> Z) (a b : A) : Prop :=
  (compare a b <= 0)%Z.

(** [a] sorts strictly before [b]. *)
Definition ordersBefore (compare : string -> string -> Z) (a b : string) : Prop :=
  (compare a b < 0)%Z /\ (0 < compare b a)%Z.

(** A chain whose edges carry no rule data. *)
Definition bareEdges : list FeatureEdge :=
  [bareEdge "e1" "A" "B"; emptyDataEdge "e2" "B" "C"].

(** ** The state of the [useFlowGraph] hook and its operations *)

Record HookState := {
  s_nodes : list FeatureNode;
  s_edges : list FeatureEdge;
  s_selectedNodeId : option string;
  s_selectedEdgeId : option string;
  s_simulationState : SimulationState;
  s_isSimulating : bool;
  s_isTraceMode : bool;
  s_hoveredNodeId : option string
}.

(** The state setters; [setNodes] and [setEdges] take an updater. *)
Definition setNodes (f : list FeatureNode -> list FeatureNode) (st : HookState)
  : HookState :=
  {| s_nodes := f (s_nodes st); s_edges := s_edges st;
     s_selectedNodeId := s_selectedNodeId st;
     s_selectedEdgeId := s_selectedEdgeId st;
     s_simulationState := s_simulationState st;
     s_isSimulating := s_isSimulating st; s_isTraceMode := s_isTraceMode st;
     s_hoveredNodeId := s_hoveredNodeId st |}.

Definition setEdges (f : list FeatureEdge -> list FeatureEdge) (st : HookState)
  : HookState :=
  {| s_nodes := s_nodes st; s_edges := f (s_edges st);
     s_selectedNodeId := s_selectedNodeId st;
     s_selectedEdgeId := s_selectedEdgeId st;
     s_simulationState := s_simulationState st;
     s_isSimulating := s_isSimulating st; s_isTraceMode := s_isTraceMode st;
     s_hoveredNodeId := s_hoveredNodeId st |}.

Definition setSelectedNodeId (v : option string) (st : HookState) : HookState :=
  {| s_nodes := s_nodes st; s_edges := s_edges st;
     s_selectedNodeId := v;
     s_selectedEdgeId := s_selectedEdgeId st;
     s_simulationState := s_simulationState st;
     s_isSimulating := s_isSimulating st; s_isTraceMode := s_isTraceMode st;
     s_hoveredNodeId := s_hoveredNodeId st |}.

Definition setSelectedEdgeId (v : option string) (st : HookState) : HookState :=
  {| s_nodes := s_nodes st; s_edges := s_edges st;
     s_selectedNodeId := s_selectedNodeId st;
     s_selectedEdgeId := v;
     s_simulationState := s_simulationState st;
     s_isSimulating := s_isSimulating st; s_isTraceMode := s_isTraceMode st;
     s_hoveredNodeId := s_hoveredNodeId st |}.

Definition setSimulationState (f : SimulationState -> SimulationState)
    (st : HookState) : HookState :=
  {| s_nodes := s_nodes st; s_edges := s_edges st;
     s_selectedNodeId := s_selectedNodeId st;
     s_selectedEdgeId := s_selectedEdgeId st;
     s_simulationState := f (s_simulationState st);
     s_isSimulating := s_isSimulating st; s_isTraceMode := s_isTraceMode st;
     s_hoveredNodeId := s_hoveredNodeId st |}.

Definition setIsSimulating (f : bool -> bool) (st : HookState) : HookState :=
  {| s_nodes := s_nodes st; s_edges := s_edges st;
     s_selectedNodeId := s_selectedNodeId st;
     s_selectedEdgeId := s_selectedEdgeId st;
     s_simulationState := s_simulationState st;
     s_isSimulating := f (s_isSimulating st); s_isTraceMode := s_isTraceMode st;
     s_hoveredNodeId := s_hoveredNodeId st |}.

Definition setIsTraceMode (f : bool -> bool) (st : HookState) : HookState :=
  {| s_nodes := s_nodes st; s_edges := s_edges st;
     s_selectedNodeId := s_selectedNodeId st;
     s_selectedEdgeId := s_selectedEdgeId st;
     s_simulationState := s_simulationState st;
     s_isSimulating := s_isSimulating st; s_isTraceMode := f (s_isTraceMode st);
     s_hoveredNodeId := s_hoveredNodeId st |}.

Definition setHoveredNodeId (v : option string) (st : HookState) : HookState :=
  {| s_nodes := s_nodes st; s_edges := s_edges st;
     s_selectedNodeId := s_selectedNodeId st;
     s_selectedEdgeId := s_selectedEdgeId st;
     s_simulationState := s_simulationState st;
     s_isSimulating := s_isSimulating st; s_isTraceMode := s_isTraceMode st;
     s_hoveredNodeId := v |}.

(** [selectedNodeId === nodeId] for a nullable id and a string. *)
Definition isId (selected : option string) (i : string) : bool :=
  match selected with
  | Some s => String.eqb s i
  | None => false
  end.

(** [addNode]; [newNodeId] is what [nanoid(8)] returned.  The position of
    the node is not part of [FeatureNode] here. *)
Definition addNode (newNodeId : string) (label : string)
    (parentId : option string) (st : HookState) : HookState :=
  let newNode := {| node_id := newNodeId; label := label; description := None |} in
  let st1 := setNodes (fun nds => nds ++ [newNode]) st in
  match parentId with
  | Some parent =>
      if falsy parentId then st1
      else
        let newEdge :=
          {| edge_id := "e-" +:+ parent +:+ "-" +:+ newNodeId;
             source := parent;
             target := newNodeId;
             data := Some {| rules := Some [] |} |} in
        setEdges (fun eds => eds ++ [newEdge]) st1
  | None => st1
  end.

(** [Partial<FeatureNode['data']>]: a key is absent, or present with its
    value ([description] may be present and [undefined]). *)
Record NodeDataUpdate := {
  upd_label : option string;
  upd_description : option (option string)
}.

(** [{ ...node, data: { ...node.data, ...data } }] *)
Definition mergeNodeData (node : FeatureNode) (upd : NodeDataUpdate) : FeatureNode :=
  {| node_id := node_id node;
     label := default (label node) (upd_label upd);
     description := default (description node) (upd_description upd) |}.

Definition updateNodeData (nodeId : string) (upd : NodeDataUpdate)
    (st : HookState) : HookState :=
  setNodes (fun nds =>
    (fun node => if String.eqb (node_id node) nodeId
                 then mergeNodeData node upd else node) <$> nds) st.

Definition deleteNode (nodeId : string) (st : HookState) : HookState :=
  let st1 := setNodes (filter (fun node => node_id node <> nodeId)) st in
  let st2 := setEdges (filter (fun edge => source edge <> nodeId
                                           /\ target edge <> nodeId)) st1 in
  if isId (s_selectedNodeId st) nodeId then setSelectedNodeId None st2 else st2.

Definition deleteNodes (nodeIds : list string) (st : HookState) : HookState :=
  let idsSet : gset string := list_to_set nodeIds in
  let st1 := setNodes (filter (fun node => node_id node ∉ idsSet)) st in
  let st2 := setEdges (filter (fun edge => source edge ∉ idsSet
                                           /\ target edge ∉ idsSet)) st1 in
  match s_selectedNodeId st with
  | Some selected =>
      if negb (falsy (s_selectedNodeId st)) && bool_decide (selected ∈ idsSet)
      then setSelectedNodeId None st2 else st2
  | None => st2
  end.

Definition deleteEdge (edgeId : string) (st : HookState) : HookState :=
  let st1 := setEdges (filter (fun edge => edge_id edge <> edgeId)) st in
  if isId (s_selectedEdgeId st) edgeId then setSelectedEdgeId None st1 else st1.

Definition selectEdge (edgeId : option string) (st : HookState) : HookState :=
  let st1 := setSelectedEdgeId edgeId st in
  if falsy edgeId then st1 else setSelectedNodeId None st1.

(** [{ ...edge, data: { ...edge.data, rules } }] *)
Definition setRules (edge : FeatureEdge) (rs : list EdgeRule) : FeatureEdge :=
  {| edge_id := edge_id edge; source := source edge; target := target edge;
     data := Some {| rules := Some rs |} |}.

(** The common shape of the three rule operations: rewrite the rule list of
    every edge that carries the id. *)
Definition mapRulesOf (edgeId : string) (f : list EdgeRule -> list EdgeRule)
    (eds : list FeatureEdge) : list FeatureEdge :=
  (fun edge => if String.eqb (edge_id edge) edgeId
               then setRules edge (f (edgeRules edge)) else edge) <$> eds.

(** [addRuleToEdge]; the rule comes without id, [newRuleId] is what
    [nanoid(6)] returned. *)
Definition addRuleToEdge (newRuleId : string) (edgeId : string)
    (c : string) (op : RuleOperator) (v : RuleValue) (st : HookState) : HookState :=
  setEdges (mapRulesOf edgeId (fun rs =>
    rs ++ [{| rule_id := newRuleId; condition := c; operator := op; value := v |}]))
    st.

(** [Partial<EdgeRule>] *)
Record RuleUpdate := {
  upd_id : option string;
  upd_condition : option string;
  upd_operator : option RuleOperator;
  upd_value : option RuleValue
}.

(** [{ ...rule, ...updates }] *)
Definition mergeRule (rule : EdgeRule) (updates : RuleUpdate) : EdgeRule :=
  {| rule_id := default (rule_id rule) (upd_id updates);
     condition := default (condition rule) (upd_condition updates);
     operator := default (operator rule) (upd_operator updates);
     value := default (value rule) (upd_value updates) |}.

Definition updateRule (edgeId ruleId : string) (updates : RuleUpdate)
    (st : HookState) : HookState :=
  setEdges (mapRulesOf edgeId (fun rs =>
    (fun rule => if String.eqb (rule_id rule) ruleId
                 then mergeRule rule updates else rule) <$> rs)) st.

Definition removeRule (edgeId ruleId : string) (st : HookState) : HookState :=
  setEdges (mapRulesOf edgeId (filter (fun rule => rule_id rule <> ruleId))) st.

(** [{ ...prev, [condition]: value }] *)
Definition updateSimulationValue (c : string) (v : RuleValue) (st : HookState)
  : HookState :=
  setSimulationState (fun prev => <[c := v]> prev) st.

(** [const next = { ...prev }; delete next[condition]] *)
Definition clearSimulationValue (c : string) (st : HookState) : HookState :=
  setSimulationState (fun prev => delete c prev) st.

Definition toggleSimulation (st : HookState) : HookState :=
  setIsSimulating negb st.

Definition resetSimulation (st : HookState) : HookState :=
  setSimulationState (fun _ => ∅) st.

Definition toggleTraceMode (st : HookState) : HookState :=
  let st1 := setIsTraceMode negb st in
  if s_isTraceMode st then setHoveredNodeId None st1 else st1.

Definition clearGraph (st : HookState) : HookState :=
  setIsSimulating (fun _ => false)
    (setSimulationState (fun _ => ∅)
      (setSelectedEdgeId None
        (setSelectedNodeId None
          (setEdges (fun _ => []) (setNodes (fun _ => []) st))))).

(** [flowEvaluation]: empty results while the simulation is off. *)
Definition flowEvaluation (st : HookState) : option FlowEvaluationResult :=
  if negb (s_isSimulating st) then
    Some {| reachableNodes := ∅; validEdges := ∅ |}
  else evaluateFlow (s_nodes st) (s_edges st) (s_simulationState st).

(** [Array.from(new Set(l))] on strings: first occurrences, in order. *)
Definition uniqueStrings (l : list string) : list string := fresh ∅ l.

(** ** What the components show *)

(** Canvas: [edgeValidityMap.get(edge.id) ?? true], read back by the edge
    component as [data?._isValid !== false]. *)
Definition edgeIsValid (edgeValidityMap : gmap string bool) (edge : FeatureEdge)
  : bool :=
  let _isValid := default true (edgeValidityMap !! edge_id edge) in
  negb (Bool.eqb _isValid false).

(** FeatureNode:
    [!isSimulating || reachableNodes.size === 0 || reachableNodes.has(id)] *)
Definition nodeIsReachable (isSimulating : bool) (reachableNodes : gset string)
    (i : string) : bool :=
  negb isSimulating || Nat.eqb (size reachableNodes) 0
  || bool_decide (i ∈ reachableNodes).

Section Panels.

(** [Number(string)] belongs to the platform. *)
Variable Number : string -> number.
Variable localeCompare : string -> string -> Z.
Variable numberToString : number -> string.

(** [conditions], [allConditionNames] and [getValuesForCondition]. *)
Definition conditions (st : HookState) : list ConditionSchema :=
  discoverConditions localeCompare numberToString (s_edges st).

Definition allConditionNames (st : HookState) : list string :=
  uniqueStrings (name <$> conditions st).

Definition getValuesForCondition (st : HookState) (conditionName : string)
  : list RuleValue :=
  match List.find (fun c => String.eqb (name c) conditionName) (conditions st) with
  | Some c => options c
  | None => []
  end.

(** SimulationPanel [handleValueChange]: the value handed to
    [onUpdateValue]. *)
Definition handleValueChange (rawValue : string) (t : ConditionType) : RuleValue :=
  match t with
  | type_boolean => VBoolean (String.eqb rawValue "true")
  | type_number => VNumber (Number rawValue)
  | type_enum => VString rawValue
  end.

(** The value parsing of [handleSubmit] in the rule forms, applied to
    [value.trim()]. *)
Definition parseRuleValue (trimmed : string) : RuleValue :=
  if String.eqb trimmed "true" then VBoolean true
  else if String.eqb trimmed "false" then VBoolean false
  else if negb (isNaN (Number trimmed)) && negb (String.eqb trimmed "")
       then VNumber (Number trimmed)
  else VString trimmed.

End Panels.

Section RuleText.

(** [String(number)] and the text of a function inherited from
    [Object.prototype] belong to the platform. *)
Variable numberToString : number -> string.
Variable inheritedText : string -> string.

(** [{ is: 'is', ... }[rule.operator]] inside the template literal: a
    missing key prints as "undefined". *)
Definition opText (op : RuleOperator) : string :=
  match op with
  | op_is => "is"
  | op_is_not => "is not"
  | op_greater_than => ">"
  | op_less_than => "<"
  | op_other name =>
      if bool_decide (name ∈ objectPrototypeMembers) then inheritedText name
      else "undefined"
  end.

Definition valueText (v : RuleValue) : string :=
  match v with
  | VBoolean b => if b then "true" else "false"
  | _ => toString numberToString v
  end.

Definition ruleToText (rule : EdgeRule) : string :=
  condition rule +:+ " " +:+ opText (operator rule) +:+ " "
    +:+ valueText (value rule).

End RuleText.

(** The part of a rule that [discoverConditions] reads. *)
Definition conditionValue (rule : EdgeRule) : string * RuleValue :=
  (condition rule, value rule).

(** ** Notions used to state the properties of the operations *)

(** An edge whose rules pass leads from [a] to [b]. *)
Definition passStep (state : SimulationState) (edges : list FeatureEdge)
    (a b : string) : Prop :=
  exists e, e ∈ edges /\ source e = a /\ target e = b
            /\ evaluateEdgeRules e state = true.

(** Every reachable id is at the end of a path of passing edges that starts
    at a root. *)
Definition PathInv (nodes : list FeatureNode) (edges : list FeatureEdge)
    (state : SimulationState) (st : FlowState) : Prop :=
  forall n, n ∈ reachable st ->
    exists r, r ∈ rootIds nodes edges /\ rtc (passStep state edges) r n.

(** Unique ids and no dangling edge: what the engine expects of a graph. *)
Definition WellFormed (st : HookState) : Prop :=
  NoDup (node_id <$> s_nodes st)
  /\ NoDup (edge_id <$> s_edges st)
  /\ forall e, e ∈ s_edges st ->
       source e ∈ (node_id <$> s_nodes st)
       /\ target e ∈ (node_id <$> s_nodes st).

(** The selected node, when its id is not empty, is a node of the graph. *)
Definition SelectionValid (st : HookState) : Prop :=
  forall i, s_selectedNodeId st = Some i -> i <> "" ->
    i ∈ (node_id <$> s_nodes st).

(** The operations that take no fresh id and no outside graph. *)
Inductive Action :=
| ActUpdateNodeData (nodeId : string) (upd : NodeDataUpdate)
| ActDeleteNode (nodeId : string)
| ActDeleteNodes (nodeIds : list string)
| ActDeleteEdge (edgeId : string)
| ActSelectEdge (edgeId : option string)
| ActAddRuleToEdge (newRuleId edgeId c : string) (op : RuleOperator) (v : RuleValue)
| ActUpdateRule (edgeId ruleId : string) (updates : RuleUpdate)
| ActRemoveRule (edgeId ruleId : string)
| ActUpdateSimulationValue (c : string) (v : RuleValue)
| ActClearSimulationValue (c : string)
| ActToggleSimulation
| ActResetSimulation
| ActToggleTraceMode
| ActClearGraph.

Definition perform (a : Action) (st : HookState) : HookState :=
  match a with
  | ActUpdateNodeData nodeId upd => updateNodeData nodeId upd st
  | ActDeleteNode nodeId => deleteNode nodeId st
  | ActDeleteNodes nodeIds => deleteNodes nodeIds st
  | ActDeleteEdge edgeId => deleteEdge edgeId st
  | ActSelectEdge edgeId => selectEdge edgeId st
  | ActAddRuleToEdge newRuleId edgeId c op v =>
      addRuleToEdge newRuleId edgeId c op v st
  | ActUpdateRule edgeId ruleId updates => updateRule edgeId ruleId updates st
  | ActRemoveRule edgeId ruleId => removeRule edgeId ruleId st
  | ActUpdateSimulationValue c v => updateSimulationValue c v st
  | ActClearSimulationValue c => clearSimulationValue c st
  | ActToggleSimulation => toggleSimulation st
  | ActResetSimulation => resetSimulation st
  | ActToggleTraceMode => toggleTraceMode st
  | ActClearGraph => clearGraph st
  end.

(** A state to run the operations on. *)
Definition chainState : HookState :=
  {| s_nodes := chainNodes; s_edges := chainEdges;
     s_selectedNodeId := Some "B"; s_selectedEdgeId := None;
     s_simulationState := guestState; s_isSimulating := true;
     s_isTraceMode := false; s_hoveredNodeId := None |}.
(** * Properties *)

(** ** Rule evaluation *)

Lemma strictEquals_spec (v w : RuleValue) :
  strictEquals (JsPrim v) w = true <-> StrictlyEqual v w.
Proof.
  split.
  - destruct v as [s|x|p], w as [t|y|q]; simpl; try discriminate.
    + intros H. apply String.eqb_eq in H. subst. constructor.
    + intros H. now constructor.
    + intros H. apply Bool.eqb_prop in H. subst. constructor.
  - intros H. destruct H; simpl.
    + apply String.eqb_refl.
    + apply Bool.eqb_reflx.
    + assumption.
Qed.

Lemma getProperty_own (state : SimulationState) key v :
  state !! key = Some v -> getProperty state key = JsPrim v.
Proof. intros H. unfold getProperty. now rewrite H. Qed.

(** The default-open policy holds for every condition name that is not a
    member of [Object.prototype]. *)
Lemma evaluateRule_absent (rule : EdgeRule) (state : SimulationState) :
  state !! condition rule = None ->
  condition rule ∉ objectPrototypeMembers ->
  evaluateRule rule state = true.
Proof.
  intros Habs Hmem. unfold evaluateRule, getProperty. rewrite Habs.
  now rewrite bool_decide_eq_false_2.
Qed.

(** C3. With an empty context, a rule on the condition ["toString"] does not
    pass: [state["toString"]] is the inherited method, not [undefined], so
    the [is] comparison is made and fails. *)
Theorem evaluateRule_inherited_member :
  let rule := {| rule_id := "r1"; condition := "toString";
                 operator := op_is; value := VString "x" |} in
  (∅ : SimulationState) !! condition rule = None
  /\ evaluateRule rule ∅ = false.
Proof. split; reflexivity. Qed.

(** C4. When the context has a value for the condition of a rule, [is]
    passes exactly when the two values are strictly equal, [is_not] exactly
    when they are not, and [greater_than] / [less_than] exactly when both are
    numbers and the comparison holds; the number 5 is not strictly equal to
    the string "5", and a boolean against a numeric rule gives [false]. *)
Theorem evaluateRule_present (rule : EdgeRule) (state : SimulationState)
    (v : RuleValue) :
  state !! condition rule = Some v ->
  match operator rule with
  | op_is => evaluateRule rule state = true <-> StrictlyEqual v (value rule)
  | op_is_not => evaluateRule rule state = true <-> ~ StrictlyEqual v (value rule)
  | op_greater_than =>
      evaluateRule rule state = true <->
      exists x y, v = VNumber x /\ value rule = VNumber y /\ SFltb y x = true
  | op_less_than =>
      evaluateRule rule state = true <->
      exists x y, v = VNumber x /\ value rule = VNumber y /\ SFltb x y = true
  | op_other _ => evaluateRule rule state = true
  end
  /\ ~ StrictlyEqual (VNumber (numberOfZ 5)) (VString "5")
  /\ evaluateRule {| rule_id := "r"; condition := "x";
                     operator := op_greater_than;
                     value := VNumber (numberOfZ 5) |}
                  {[ "x" := VBoolean true ]} = false.
Proof.
  intros Hown. split; [|split; [inversion 1 | reflexivity]].
  unfold evaluateRule. rewrite (getProperty_own _ _ _ Hown).
  destruct (operator rule).
  - apply strictEquals_spec.
  - rewrite negb_true_iff, <- not_true_iff_false. now rewrite strictEquals_spec.
  - destruct v as [s|x|p], (value rule) as [t|y|q]; simpl;
      try (split; [discriminate | intros (? & ? & ? & ? & ?); discriminate]).
    split; [intros H; eauto | intros (? & ? & [= ->] & [= ->] & H); exact H].
  - destruct v as [s|x|p], (value rule) as [t|y|q]; simpl;
      try (split; [discriminate | intros (? & ? & ? & ? & ?); discriminate]).
    split; [intros H; eauto | intros (? & ? & [= ->] & [= ->] & H); exact H].
  - reflexivity.
Qed.

Lemma evaluateRule_present_witness :
  adminState !! condition (roleRule "admin") = Some (VString "admin")
  /\ (evaluateRule (roleRule "admin") adminState = true
      <-> StrictlyEqual (VString "admin") (value (roleRule "admin"))).
Proof.
  assert (Hown : adminState !! condition (roleRule "admin")
                 = Some (VString "admin")) by reflexivity.
  split; [exact Hown|].
  exact (proj1 (evaluateRule_present (roleRule "admin") adminState
                  (VString "admin") Hown)).
Defined.

Lemma evaluateEdgeRules_forallb (edge : FeatureEdge) (state : SimulationState) :
  evaluateEdgeRules edge state
    = forallb (fun rule => evaluateRule rule state) (edgeRules edge).
Proof.
  unfold evaluateEdgeRules. now destruct (edgeRules edge).
Qed.

(** C8. [evaluateEdgeRules] is the conjunction of [evaluateRule] over the
    rule list of the edge: for an edge that carries the rule list [rs] it is
    the AND-reduction of [evaluateRule] over [rs], [true] exactly when every
    rule of [rs] passes, so one failing rule closes the edge whatever the
    other rules do; an edge whose rule list is empty is satisfied in every
    context. *)
Theorem evaluateEdgeRules_and_reduction (edge : FeatureEdge) (state : SimulationState) :
  evaluateEdgeRules edge state
    = foldr (fun rule acc => evaluateRule rule state && acc) true (edgeRules edge)
  /\ (evaluateEdgeRules edge state = true <->
      forall rule, rule ∈ edgeRules edge -> evaluateRule rule state = true)
  /\ (forall i s t, evaluateEdgeRules (mkEdge i s t []) state = true)
  /\ (forall i s t rs,
        evaluateEdgeRules
          {| edge_id := i; source := s; target := t;
             data := Some {| rules := Some rs |} |} state
          = foldr (fun rule acc => evaluateRule rule state && acc) true rs)
  /\ (forall i s t rs,
        evaluateEdgeRules
          {| edge_id := i; source := s; target := t;
             data := Some {| rules := Some rs |} |} state = true
        <-> forall rule, rule ∈ rs -> evaluateRule rule state = true)
  /\ (forall i s t rs1 rule rs2,
        evaluateRule rule state = false ->
        evaluateEdgeRules
          {| edge_id := i; source := s; target := t;
             data := Some {| rules := Some (rs1 ++ rule :: rs2) |} |} state
          = false)
  /\ evaluateEdgeRules (mkEdge "e1" "A" "B" [roleRule "admin"]) guestState = false
  /\ evaluateEdgeRules (mkEdge "e1" "A" "B" [roleRule "admin"]) adminState = true
  /\ evaluateEdgeRules
       (mkEdge "e1" "A" "B"
          [roleRule "admin";
           {| rule_id := "r2"; condition := "role"; operator := op_is;
              value := VString "guest" |}]) adminState
     = false.
Proof.
  assert (Hfold : forall rs,
    forallb (fun rule => evaluateRule rule state) rs
      = foldr (fun rule acc => evaluateRule rule state && acc) true rs).
  { induction rs as [|r rs IH]; simpl; [reflexivity | now rewrite IH]. }
  assert (Hall : forall rs,
    forallb (fun rule => evaluateRule rule state) rs = true
    <-> forall rule, rule ∈ rs -> evaluateRule rule state = true).
  { intros rs. rewrite forallb_forall. split.
    - intros H rule Hin. apply H. now apply list_elem_of_In.
    - intros H rule Hin. apply H. now apply list_elem_of_In. }
  split; [|split; [|split; [|split; [|split; [|split]]]]].
  - rewrite evaluateEdgeRules_forallb. apply Hfold.
  - rewrite evaluateEdgeRules_forallb. apply Hall.
  - reflexivity.
  - intros i s t rs. rewrite evaluateEdgeRules_forallb. apply Hfold.
  - intros i s t rs. rewrite evaluateEdgeRules_forallb. apply Hall.
  - intros i s t rs1 rule rs2 Hfail. rewrite evaluateEdgeRules_forallb.
    apply not_true_iff_false. intros Hpass.
    apply (Hall (rs1 ++ rule :: rs2)) with (rule := rule) in Hpass.
    + congruence.
    + apply elem_of_app. right. left.
  - split; [|split]; vm_compute; reflexivity.
Qed.

(** ** Adjacency maps *)

Lemma bucket_pushEdge key m edge n :
  bucket (pushEdge key m edge) n
    = if decide (key edge = n) then bucket m n ++ [edge] else bucket m n.
Proof.
  unfold bucket, pushEdge.
  destruct (decide (key edge = n)) as [<-|Hne].
  - rewrite lookup_alter_eq. case_bool_decide as Hsome.
    + destruct Hsome as [b Hb]. now rewrite Hb.
    + rewrite lookup_insert_eq.
      destruct (m !! key edge) eqn:E; [exfalso; eauto | reflexivity].
  - rewrite lookup_alter_ne by done. case_bool_decide.
    + reflexivity.
    + now rewrite lookup_insert_ne.
Qed.

Lemma adjacency_snoc key edges edge :
  adjacency key (edges ++ [edge]) = pushEdge key (adjacency key edges) edge.
Proof. unfold adjacency. now rewrite foldl_app. Qed.

(** The bucket of a node holds, in input order, the edges keyed by it. *)
Lemma bucket_adjacency key edges n :
  bucket (adjacency key edges) n = filter (fun e => key e = n) edges.
Proof.
  induction edges as [|edge edges IH] using rev_ind.
  - reflexivity.
  - rewrite adjacency_snoc, bucket_pushEdge, filter_app, IH.
    rewrite filter_cons, filter_nil.
    destruct (decide (key edge = n)); [reflexivity | now rewrite app_nil_r].
Qed.

(** ** The inner loop of [evaluateFlow] *)

Lemma processEdges_spec state es : forall st,
  (forall e, e ∈ es -> source e ∈ reachable st) ->
  let st' := foldl (processEdge state) st es in
  reachable st' = reachable st ∪ list_to_set (target <$> passing state es)
  /\ queue st' = queue st ++ (target <$> passing state es)
  /\ visited st' = visited st
  /\ valid st' = foldl (fun v e => <[edge_id e := evaluateEdgeRules e state]> v)
                       (valid st) es.
Proof.
  induction es as [|e es IH]; intros st Hsrc; cbn [foldl].
  - unfold passing. rewrite filter_nil. cbn [fmap list_fmap list_to_set].
    repeat split; [set_solver | now rewrite app_nil_r].
  - assert (He : source e ∈ reachable st) by (apply Hsrc; left).
    unfold processEdge at 2 4 6 8. rewrite (bool_decide_eq_true_2 _ He). simpl.
    unfold passing. rewrite filter_cons. fold (passing state es).
    destruct (evaluateEdgeRules e state) eqn:Hr.
    + rewrite decide_True by done.
      edestruct (IH {| reachable := reachable st ∪ {[target e]};
                       valid := <[edge_id e := true]> (valid st);
                       queue := queue st ++ [target e];
                       visited := visited st |}) as (H1 & H2 & H3 & H4).
      { simpl. intros e' He'. apply elem_of_union_l. apply Hsrc. now right. }
      simpl in *. rewrite H1, H2, H3, H4.
      repeat split; [set_solver | now rewrite <- app_assoc].
    + rewrite decide_False by done.
      edestruct (IH {| reachable := reachable st;
                       valid := <[edge_id e := false]> (valid st);
                       queue := queue st;
                       visited := visited st |}) as (H1 & H2 & H3 & H4).
      { simpl. intros e' He'. apply Hsrc. now right. }
      simpl in *. rewrite H1, H2, H3, H4. done.
Qed.

Lemma lookup_foldl_insert_notin {B} (f : FeatureEdge -> B) es : forall (v : gmap string B) i,
  i ∉ (edge_id <$> es) ->
  foldl (fun v e => <[edge_id e := f e]> v) v es !! i = v !! i.
Proof.
  induction es as [|e es IH]; intros v i Hi; simpl; [reflexivity|].
  rewrite fmap_cons, not_elem_of_cons in Hi. destruct Hi as [Hne Hi].
  rewrite IH by done. now rewrite lookup_insert_ne.
Qed.

Lemma lookup_foldl_insert_in {B} (f : FeatureEdge -> B) es : forall (v : gmap string B) e,
  NoDup (edge_id <$> es) -> e ∈ es ->
  foldl (fun v e => <[edge_id e := f e]> v) v es !! edge_id e = Some (f e).
Proof.
  induction es as [|e0 es IH]; intros v e Hnd He; [inversion He|].
  rewrite fmap_cons, NoDup_cons in Hnd. destruct Hnd as [Hnotin Hnd].
  simpl. apply elem_of_cons in He as [->|He].
  - rewrite lookup_foldl_insert_notin by done. apply lookup_insert_eq.
  - now apply IH.
Qed.

Lemma lookup_foldl_insert_some {B} (f : FeatureEdge -> B) es : forall (v : gmap string B) i,
  is_Some (foldl (fun v e => <[edge_id e := f e]> v) v es !! i) ->
  is_Some (v !! i) \/ i ∈ (edge_id <$> es).
Proof.
  intros v i H. destruct (decide (i ∈ (edge_id <$> es))) as [|Hn]; [now right|].
  left. now rewrite lookup_foldl_insert_notin in H.
Qed.

(** Edges with unique ids are determined by their id. *)
Lemma NoDup_edge_id_inj es e e' :
  NoDup (edge_id <$> es) -> e ∈ es -> e' ∈ es -> edge_id e = edge_id e' -> e = e'.
Proof.
  induction es as [|e0 es IH]; intros Hnd He He' Hid; [inversion He|].
  rewrite fmap_cons, NoDup_cons in Hnd. destruct Hnd as [Hnotin Hnd].
  apply elem_of_cons in He as [->|He]; apply elem_of_cons in He' as [->|He'].
  - reflexivity.
  - exfalso. apply Hnotin. rewrite Hid. now apply list_elem_of_fmap_2.
  - exfalso. apply Hnotin. rewrite <- Hid. now apply list_elem_of_fmap_2.
  - now apply IH.
Qed.

(** ** One iteration of the loop *)

(** What an iteration does to the loop variables: it pops the head of the
    queue and, unless that node was visited, expands its outgoing edges. *)
Lemma iteration_inv state edges st st' :
  iteration state (outgoingEdges edges) st = Some st' ->
  (forall n, n ∈ queue st -> n ∈ reachable st) ->
  exists nodeId rest, queue st = nodeId :: rest /\
    ((nodeId ∈ visited st /\ reachable st' = reachable st /\ valid st' = valid st
      /\ queue st' = rest /\ visited st' = visited st)
     \/ ((nodeId ∉ visited st) /\
         (let es := filter (fun e => source e = nodeId) edges in
          reachable st' = reachable st ∪ list_to_set (target <$> passing state es)
          /\ valid st' = foldl (fun v e => <[edge_id e := evaluateEdgeRules e state]> v)
                               (valid st) es
          /\ queue st' = rest ++ (target <$> passing state es)
          /\ visited st' = visited st ∪ {[nodeId]}))).
Proof.
  unfold iteration. intros Hit Hq.
  destruct (queue st) as [|nodeId rest] eqn:Eq; [discriminate|].
  exists nodeId, rest. split; [reflexivity|].
  case_bool_decide as Hv.
  - left. injection Hit as <-. simpl. done.
  - right. split; [done|]. injection Hit as <-.
    unfold outgoingEdges. rewrite bucket_adjacency.
    match goal with |- context [foldl _ ?s ?l] =>
      destruct (processEdges_spec state l s) as (H1 & H2 & H3 & H4) end.
    { intros e He. apply list_elem_of_filter in He as [-> _]. simpl.
      apply Hq. left. }
    simpl in *. done.
Qed.

Lemma initial_FlowInv nodes edges state :
  FlowInv nodes edges state (initialFlowState nodes edges).
Proof.
  assert (Hreach : forall l (r : gset string) n,
    n ∈ foldl (fun r root => r ∪ {[node_id root]}) r l
    <-> n ∈ r \/ n ∈ (node_id <$> l)).
  { induction l as [|x l IH]; intros r n; simpl.
    - rewrite elem_of_nil. tauto.
    - rewrite IH, elem_of_cons. set_solver. }
  unfold initialFlowState.
  split; simpl.
  - intros n Hn. apply Hreach. now right.
  - intros n Hn. set_solver.
  - intros n Hn. apply Hreach in Hn as [Hn|Hn]; [set_solver | now right].
  - intros n. rewrite Hreach. unfold rootIds. rewrite elem_of_list_to_set.
    split.
    + intros [Hn|Hn]; [set_solver | now left].
    + intros [Hn|(e & _ & He & _)]; [now right | set_solver].
  - intros i [b Hb]. now rewrite lookup_empty in Hb.
Qed.

Lemma iteration_FlowInv nodes edges state st st' :
  FlowInv nodes edges state st ->
  iteration state (outgoingEdges edges) st = Some st' ->
  FlowInv nodes edges state st'.
Proof.
  intros [Hq Hv Hf Hr Hd] Hit.
  destruct (iteration_inv _ _ _ _ Hit Hq) as (nodeId & rest & Eq & Hcase).
  rewrite Eq in Hq, Hf.
  destruct Hcase as [(Hvis & E1 & E2 & E3 & E4) | (Hvis & E1 & E2 & E3 & E4)].
  - split; rewrite ?E1, ?E2, ?E3, ?E4; try done.
    + intros n Hn. apply Hq. now right.
    + intros n Hn. destruct (Hf n Hn) as [H|H]; [now left|].
      apply elem_of_cons in H as [->|H]; [now left | now right].
  - assert (Hnode : nodeId ∈ reachable st) by (apply Hq; left).
    assert (HT : forall n,
      n ∈ (target <$> passing state (filter (fun e => source e = nodeId) edges))
      <-> exists e, e ∈ edges /\ source e = nodeId
                    /\ evaluateEdgeRules e state = true /\ target e = n).
    { intros n. rewrite list_elem_of_fmap. unfold passing. split.
      - intros (e & -> & He). apply list_elem_of_filter in He as [Hp He].
        apply list_elem_of_filter in He as [Hs He]. eauto.
      - intros (e & He & Hs & Hp & <-). exists e. split; [done|].
        apply list_elem_of_filter. split; [done|].
        apply list_elem_of_filter. done. }
    split; rewrite ?E1, ?E2, ?E3, ?E4.
    + intros n Hn. apply elem_of_union. rewrite elem_of_list_to_set.
      apply elem_of_app in Hn as [Hn|Hn]; [left; apply Hq; now right | now right].
    + intros n Hn. apply elem_of_union. left.
      apply elem_of_union in Hn as [Hn|Hn]; [now apply Hv|].
      apply elem_of_singleton in Hn as ->. done.
    + intros n Hn. rewrite elem_of_union, elem_of_app.
      apply elem_of_union in Hn as [Hn|Hn].
      * destruct (Hf n Hn) as [H|H]; [tauto|].
        apply elem_of_cons in H as [->|H]; [left; right; set_solver | tauto].
      * apply elem_of_list_to_set in Hn. tauto.
    + intros n. rewrite elem_of_union, elem_of_list_to_set, HT, Hr. split.
      * intros [[H|(e & He & Hs & Hp & Ht)]|(e & He & Hs & Hp & Ht)].
        -- now left.
        -- right. exists e. repeat split; try done. set_solver.
        -- right. exists e. repeat split; try done. set_solver.
      * intros [H|(e & He & Hs & Hp & Ht)]; [left; now left|].
        apply elem_of_union in Hs as [Hs|Hs].
        -- left. right. eauto.
        -- right. apply elem_of_singleton in Hs. eauto.
    + intros i Hi. apply lookup_foldl_insert_some in Hi as [Hi|Hi].
      * destruct (Hd i Hi) as (e & He & Hid & Hs). exists e.
        repeat split; try done. set_solver.
      * apply list_elem_of_fmap in Hi as (e & -> & He).
        apply list_elem_of_filter in He as [Hs He]. exists e.
        repeat split; try done. set_solver.
Qed.

Lemma iteration_ValidInv nodes edges state st st' :
  NoDup (edge_id <$> edges) ->
  FlowInv nodes edges state st ->
  ValidInv edges state st ->
  iteration state (outgoingEdges edges) st = Some st' ->
  ValidInv edges state st'.
Proof.
  intros Hnd Hinv Hval Hit e He.
  destruct (iteration_inv _ _ _ _ Hit (inv_queue _ _ _ _ Hinv))
    as (nodeId & rest & Eq & Hcase).
  destruct Hcase as [(Hvis & E1 & E2 & E3 & E4) | (Hvis & E1 & E2 & E3 & E4)].
  - rewrite E2, E4. now apply Hval.
  - rewrite E2, E4. destruct (decide (source e = nodeId)) as [Hs|Hs].
    + rewrite decide_True by set_solver.
      apply (lookup_foldl_insert_in (fun e => evaluateEdgeRules e state)).
      * refine (sublist_NoDup _ _ Hnd _).  apply fmap_sublist, sublist_filter.
      * apply list_elem_of_filter. done.
    + rewrite (lookup_foldl_insert_notin (fun e => evaluateEdgeRules e state)).
      * rewrite (Hval e He). repeat case_decide; try done; set_solver.
      * intros Hin. apply list_elem_of_fmap in Hin as (e' & Hid & He').
        apply list_elem_of_filter in He' as [Hs' He'].
        apply Hs. rewrite (NoDup_edge_id_inj edges e e' Hnd He He' Hid). done.
Qed.

(** ** Termination of the loop *)

Lemma filter_unvisited_split (edges : list FeatureEdge) (V : gset string) n :
  n ∉ V ->
  length (filter (fun e => source e ∉ V ∪ {[n]}) edges)
  + length (filter (fun e => source e = n) edges)
  = length (filter (fun e => source e ∉ V) edges).
Proof.
  intros Hn. induction edges as [|e edges IH]; [reflexivity|].
  rewrite !filter_cons.
  destruct (decide (source e = n)) as [Hs|Hs].
  - rewrite decide_False by set_solver. rewrite decide_True by set_solver.
    simpl. lia.
  - destruct (decide (source e ∈ V)).
    + rewrite decide_False by set_solver. rewrite decide_False by set_solver. lia.
    + rewrite decide_True by set_solver. rewrite decide_True by set_solver.
      simpl. lia.
Qed.

(** Every iteration lowers the measure. *)
Lemma iteration_measure state edges st st' :
  (forall n, n ∈ queue st -> n ∈ reachable st) ->
  iteration state (outgoingEdges edges) st = Some st' ->
  flowMeasure edges st' < flowMeasure edges st.
Proof.
  intros Hq Hit.
  destruct (iteration_inv _ _ _ _ Hit Hq) as (nodeId & rest & Eq & Hcase).
  unfold flowMeasure. rewrite Eq.
  destruct Hcase as [(Hvis & E1 & E2 & E3 & E4) | (Hvis & E1 & E2 & E3 & E4)].
  - rewrite E3, E4. simpl. lia.
  - rewrite E3, E4. rewrite length_app, length_fmap.
    pose proof (filter_unvisited_split edges (visited st) nodeId Hvis).
    pose proof (length_filter (fun e => evaluateEdgeRules e state = true)
                  (filter (fun e => source e = nodeId) edges)).
    unfold passing. simpl. lia.
Qed.

(** With fuel at least the measure, the loop ends with an empty queue and
    keeps whatever its iterations preserve. *)
Lemma bfs_terminates state edges (P : FlowState -> Prop) :
  (forall st, P st -> forall n, n ∈ queue st -> n ∈ reachable st) ->
  (forall st st', P st -> iteration state (outgoingEdges edges) st = Some st' -> P st') ->
  forall fuel st, P st -> flowMeasure edges st <= fuel ->
  exists st', bfs fuel state (outgoingEdges edges) st = Some st'
              /\ P st' /\ queue st' = [].
Proof.
  intros Hq Hstep. induction fuel as [|fuel IH]; intros st HP Hm.
  - simpl. destruct (iteration state (outgoingEdges edges) st) as [st'|] eqn:Hit.
    + pose proof (iteration_measure _ _ _ _ (Hq st HP) Hit). lia.
    + exists st. repeat split; try done.
      unfold iteration in Hit. destruct (queue st); [done|].
      case_bool_decide; discriminate.
  - simpl. destruct (iteration state (outgoingEdges edges) st) as [st'|] eqn:Hit.
    + apply IH; [eapply Hstep; eauto|].
      pose proof (iteration_measure _ _ _ _ (Hq st HP) Hit). lia.
    + exists st. repeat split; try done.
      unfold iteration in Hit. destruct (queue st); [done|].
      case_bool_decide; discriminate.
Qed.

Lemma initial_flowMeasure nodes edges :
  flowMeasure edges (initialFlowState nodes edges) <= length nodes + length edges.
Proof.
  unfold flowMeasure, initialFlowState, rootNodes. simpl.
  rewrite length_fmap.
  apply Nat.add_le_mono; apply length_filter.
Qed.

Lemma markUnvisited_lookup edges : forall (v : gmap string bool) i,
  markUnvisited edges v !! i
    = match v !! i with
      | Some b => Some b
      | None => if decide (i ∈ (edge_id <$> edges)) then Some false else None
      end.
Proof.
  unfold markUnvisited.
  induction edges as [|e edges IH]; intros v i; cbn [foldl].
  - destruct (v !! i); [reflexivity|]. rewrite fmap_nil.
    now rewrite decide_False by apply not_elem_of_nil.
  - rewrite IH, fmap_cons. case_bool_decide as Hs.
    + destruct (v !! i) eqn:E; [reflexivity|].
      destruct (decide (edge_id e = i)) as [<-|Hne].
      * destruct Hs as [b Hb]. congruence.
      * repeat case_decide; try done; set_solver.
    + destruct (decide (edge_id e = i)) as [<-|Hne].
      * rewrite lookup_insert_eq.
        destruct (v !! edge_id e) eqn:E; [exfalso; eauto|].
        rewrite decide_True by set_solver. done.
      * rewrite lookup_insert_ne by done.
        destruct (v !! i); [reflexivity|].
        repeat case_decide; try done; set_solver.
Qed.

(** The loop of [evaluateFlow] always finishes within its bound, in a state
    that satisfies the invariant and has an empty queue. *)
Lemma evaluateFlow_loop nodes edges state :
  exists st,
    bfs (length nodes + length edges) state (outgoingEdges edges)
        (initialFlowState nodes edges) = Some st
    /\ FlowInv nodes edges state st /\ queue st = []
    /\ (NoDup (edge_id <$> edges) -> ValidInv edges state st).
Proof.
  destruct (decide (NoDup (edge_id <$> edges))) as [Hnd|Hnd].
  - destruct (bfs_terminates state edges
      (fun st => FlowInv nodes edges state st /\ ValidInv edges state st))
      with (fuel := length nodes + length edges)
           (st := initialFlowState nodes edges)
      as (st & Hb & [Hinv Hval] & Hq).
    + intros st [Hinv _]. apply Hinv.
    + intros st st' [Hinv Hval] Hit. split.
      * eapply iteration_FlowInv; eauto.
      * eapply iteration_ValidInv; eauto.
    + split; [apply initial_FlowInv|]. intros e He. simpl.
      rewrite lookup_empty. now rewrite decide_False by set_solver.
    + apply initial_flowMeasure.
    + exists st. done.
  - destruct (bfs_terminates state edges (FlowInv nodes edges state))
      with (fuel := length nodes + length edges)
           (st := initialFlowState nodes edges)
      as (st & Hb & Hinv & Hq).
    + intros st Hinv. apply Hinv.
    + intros st st' Hinv Hit. eapply iteration_FlowInv; eauto.
    + apply initial_FlowInv.
    + apply initial_flowMeasure.
    + exists st. done.
Qed.

(** At the end of the loop the reachable nodes are the visited ones. *)
Lemma FlowInv_final nodes edges state st n :
  FlowInv nodes edges state st -> queue st = [] ->
  n ∈ visited st <-> n ∈ reachable st.
Proof.
  intros Hinv Hq. split; [apply Hinv|].
  intros Hn. destruct (inv_frontier _ _ _ _ Hinv n Hn) as [H|H]; [done|].
  rewrite Hq in H. inversion H.
Qed.

(** ** Results of [evaluateFlow] *)

Lemma evaluateFlow_result nodes edges state :
  exists st,
    evaluateFlow nodes edges state
      = Some {| reachableNodes := reachable st;
                validEdges := markUnvisited edges (valid st) |}
    /\ FlowInv nodes edges state st /\ queue st = []
    /\ (NoDup (edge_id <$> edges) -> ValidInv edges state st).
Proof.
  destruct (evaluateFlow_loop nodes edges state) as (st & Hb & Hinv & Hq & Hval).
  exists st. unfold evaluateFlow. rewrite Hb. done.
Qed.

Lemma final_validEdges_lookup nodes edges state st e :
  FlowInv nodes edges state st -> queue st = [] -> ValidInv edges state st ->
  e ∈ edges ->
  markUnvisited edges (valid st) !! edge_id e
    = Some (bool_decide (source e ∈ reachable st) && evaluateEdgeRules e state).
Proof.
  intros Hinv Hq Hval He. rewrite markUnvisited_lookup, (Hval e He).
  pose proof (FlowInv_final _ _ _ _ (source e) Hinv Hq) as Hfin.
  destruct (decide (source e ∈ visited st)) as [Hs|Hs].
  - rewrite bool_decide_eq_true_2 by (now apply Hfin). done.
  - rewrite bool_decide_eq_false_2 by (intros H; now apply Hs, Hfin).
    rewrite decide_True by (now apply list_elem_of_fmap_2). done.
Qed.

Lemma final_validEdges_dom nodes edges state st :
  FlowInv nodes edges state st ->
  dom (markUnvisited edges (valid st)) = list_to_set (edge_id <$> edges).
Proof.
  intros Hinv. apply set_eq. intros i.
  rewrite elem_of_dom, elem_of_list_to_set, markUnvisited_lookup.
  destruct (valid st !! i) eqn:E.
  - split; [intros _ | eauto].
    destruct (inv_dom _ _ _ _ Hinv i) as (e & He & <- & _); [eauto|].
    now apply list_elem_of_fmap_2.
  - case_decide; split; try done; eauto.
Qed.

(** C1. For edges with unique ids, the validity map has exactly the input
    edge ids as keys, and the entry of an edge is [true] exactly when its
    source is in the returned reachable set and its rules are satisfied; an
    edge whose source was not reached is recorded as [false]. *)
Theorem evaluateFlow_validEdges (nodes : list FeatureNode)
    (edges : list FeatureEdge) (state : SimulationState) :
  NoDup (edge_id <$> edges) ->
  exists result,
    evaluateFlow nodes edges state = Some result
    /\ dom (validEdges result) = list_to_set (edge_id <$> edges)
    /\ (forall e, e ∈ edges ->
          validEdges result !! edge_id e
            = Some (bool_decide (source e ∈ reachableNodes result)
                    && evaluateEdgeRules e state))
    /\ (forall e, e ∈ edges -> source e ∉ reachableNodes result ->
          validEdges result !! edge_id e = Some false).
Proof.
  intros Hnd.
  destruct (evaluateFlow_result nodes edges state) as (st & Hev & Hinv & Hq & Hval).
  specialize (Hval Hnd).
  eexists. split; [exact Hev|]. simpl. split; [|split].
  - eapply final_validEdges_dom; eauto.
  - intros e He. eapply final_validEdges_lookup; eauto.
  - intros e He Hs.
    rewrite (final_validEdges_lookup _ _ _ _ _ Hinv Hq Hval He).
    now rewrite bool_decide_eq_false_2.
Qed.

Lemma evaluateFlow_validEdges_witness :
  NoDup (edge_id <$> gateEdges)
  /\ exists result,
       evaluateFlow gateNodes gateEdges adminState = Some result
       /\ dom (validEdges result) = list_to_set (edge_id <$> gateEdges)
       /\ (forall e, e ∈ gateEdges ->
             validEdges result !! edge_id e
               = Some (bool_decide (source e ∈ reachableNodes result)
                       && evaluateEdgeRules e adminState))
       /\ (forall e, e ∈ gateEdges -> source e ∉ reachableNodes result ->
             validEdges result !! edge_id e = Some false).
Proof.
  assert (Hnd : NoDup (edge_id <$> gateEdges)).
  { compute_done. }
  split; [exact Hnd|].
  exact (evaluateFlow_validEdges gateNodes gateEdges adminState Hnd).
Defined.

Lemma elem_of_rootNodes nodes edges n :
  n ∈ rootNodes nodes edges
  <-> n ∈ nodes /\ ~ exists e, e ∈ edges /\ target e = node_id n.
Proof.
  unfold rootNodes, nodesWithIncoming.
  rewrite list_elem_of_filter, elem_of_list_to_set, list_elem_of_fmap.
  split; intros [H1 H2].
  - split; [done|]. intros (e & He & Ht). apply H1. eauto.
  - split; [|done]. intros (e & Ht & He). apply H2. eauto.
Qed.

(** ** Each node is expanded at most once *)

Lemma processEdges_visited state es : forall st,
  visited (foldl (processEdge state) st es) = visited st.
Proof.
  induction es as [|e es IH]; intros st; [reflexivity|].
  simpl. rewrite IH. unfold processEdge.
  by destruct (bool_decide (source e ∈ reachable st) && evaluateEdgeRules e state).
Qed.

Lemma iteration_visited state out st st' :
  iteration state out st = Some st' ->
  visited st ⊆ visited st'
  /\ forall n, expands st = Some n -> n ∈ visited st'.
Proof.
  unfold iteration, expands. intros Hit.
  destruct (queue st) as [|nodeId rest]; [discriminate|].
  case_bool_decide as Hv; injection Hit as <-.
  - simpl. split; [done | discriminate].
  - rewrite processEdges_visited. simpl. split; [set_solver|].
    intros n [= <-]. set_solver.
Qed.

Lemma run_visited state out k : forall st st',
  run k state out st = Some st' -> visited st ⊆ visited st'.
Proof.
  induction k as [|k IH]; intros st st' Hrun; simpl in Hrun.
  - injection Hrun as <-. done.
  - destruct (iteration state out st) as [st1|] eqn:Hit; [|discriminate].
    apply iteration_visited in Hit as [Hsub _].
    etrans; [exact Hsub | now apply IH].
Qed.

Lemma run_add state out i k : forall st,
  run (i + k) state out st
    = match run i state out st with
      | Some st' => run k state out st'
      | None => None
      end.
Proof.
  induction i as [|i IH]; intros st; simpl; [reflexivity|].
  destruct (iteration state out st); [apply IH | reflexivity].
Qed.

Lemma expands_once state out st i j si sj n :
  i < j ->
  run i state out st = Some si -> run j state out st = Some sj ->
  expands si = Some n -> expands sj <> Some n.
Proof.
  intros Hij Hi Hj Hexp.
  replace j with (i + S (j - i - 1)) in Hj by lia.
  rewrite run_add, Hi in Hj. simpl in Hj.
  destruct (iteration state out si) as [s1|] eqn:Hit; [|discriminate].
  apply iteration_visited in Hit as [_ Hin]. specialize (Hin n Hexp).
  apply run_visited in Hj.
  assert (Hn : n ∈ visited sj) by set_solver.
  unfold expands. destruct (queue sj) as [|m rest]; [discriminate|].
  case_bool_decide; [discriminate|]. intros [= ->]. done.
Qed.

(** C5. [evaluateFlow] returns a result on every input; along the run of its
    loop no node is expanded twice; on the three-node cycle the root list is
    empty, no node is reachable and the three edges are mapped to [false]. *)
Theorem evaluateFlow_terminates (nodes : list FeatureNode)
    (edges : list FeatureEdge) (state : SimulationState) :
  (exists result, evaluateFlow nodes edges state = Some result)
  /\ (forall i j si sj n,
        i < j ->
        run i state (outgoingEdges edges) (initialFlowState nodes edges) = Some si ->
        run j state (outgoingEdges edges) (initialFlowState nodes edges) = Some sj ->
        expands si = Some n -> expands sj <> Some n)
  /\ rootNodes cycleNodes cycleEdges = []
  /\ evaluateFlow cycleNodes cycleEdges state
       = Some {| reachableNodes := ∅;
                 validEdges := {[ "e1" := false; "e2" := false; "e3" := false ]} |}.
Proof.
  split; [|split; [|split]].
  - destruct (evaluateFlow_result nodes edges state) as (st & Hev & _). eauto.
  - intros i j si sj n. apply expands_once.
  - vm_compute. reflexivity.
  - vm_compute. reflexivity.
Qed.

Lemma elem_of_validTargets edges (v : gmap string bool) n :
  n ∈ validTargets edges v
  <-> exists e, e ∈ edges /\ v !! edge_id e = Some true /\ target e = n.
Proof.
  unfold validTargets.
  rewrite elem_of_list_to_set, list_elem_of_fmap. split.
  - intros (e & -> & He). apply list_elem_of_filter in He as [Hv He]. eauto.
  - intros (e & He & Hv & <-). exists e. split; [done|].
    apply list_elem_of_filter. done.
Qed.

(** C9, as stated, fails when two edges share an id: the second edge out of
    A overwrites the [true] entry of the first, whose target B stays
    reachable. *)
Lemma evaluateFlow_shared_id_counterexample :
  let result := {| reachableNodes := {[ "A"; "B" ]};
                   validEdges := {[ "e" := false ]} |} in
  evaluateFlow sharedIdNodes sharedIdEdges guestState = Some result
  /\ reachableNodes result
     <> rootIds sharedIdNodes sharedIdEdges
        ∪ validTargets sharedIdEdges (validEdges result).
Proof.
  split; [vm_compute; reflexivity|].
  intros Heq.
  apply (f_equal (fun s : gset string => bool_decide ("B" ∈ s))) in Heq.
  vm_compute in Heq. discriminate.
Qed.

(** C9, amended. For edges with unique ids, the returned reachable set is
    the union of the root node ids and of the targets of the edges that the
    validity map sends to [true]. *)
Theorem evaluateFlow_reachable_union (nodes : list FeatureNode)
    (edges : list FeatureEdge) (state : SimulationState) :
  NoDup (edge_id <$> edges) ->
  exists result,
    evaluateFlow nodes edges state = Some result
    /\ reachableNodes result
       = rootIds nodes edges ∪ validTargets edges (validEdges result).
Proof.
  intros Hnd.
  destruct (evaluateFlow_result nodes edges state) as (st & Hev & Hinv & Hq & Hval).
  specialize (Hval Hnd).
  eexists. split; [exact Hev|]. simpl.
  apply set_eq. intros n.
  rewrite elem_of_union, elem_of_validTargets, (inv_reach _ _ _ _ Hinv).
  split; (intros [H|(e & He & H)]; [now left | right; exists e; split; [done|]]).
  - destruct H as (Hs & Hp & Ht). split; [|done].
    rewrite (final_validEdges_lookup _ _ _ _ _ Hinv Hq Hval He), Hp.
    rewrite bool_decide_eq_true_2; [done|].
    now apply (FlowInv_final _ _ _ _ _ Hinv Hq).
  - destruct H as (Hv & Ht).
    rewrite (final_validEdges_lookup _ _ _ _ _ Hinv Hq Hval He) in Hv.
    injection Hv as Hv. apply andb_true_iff in Hv as [Hs Hp].
    apply bool_decide_eq_true_1 in Hs.
    repeat split; try done. now apply (FlowInv_final _ _ _ _ _ Hinv Hq).
Qed.

Lemma evaluateFlow_reachable_union_witness :
  NoDup (edge_id <$> chainEdges)
  /\ exists result,
       evaluateFlow chainNodes chainEdges guestState = Some result
       /\ reachableNodes result
          = rootIds chainNodes chainEdges
            ∪ validTargets chainEdges (validEdges result).
Proof.
  assert (Hnd : NoDup (edge_id <$> chainEdges)).
  { compute_done. }
  split; [exact Hnd|].
  exact (evaluateFlow_reachable_union chainNodes chainEdges guestState Hnd).
Defined.

(** ** Edges without rule data *)

Lemma withRuleList_fields edge state :
  edge_id (withRuleList edge) = edge_id edge
  /\ source (withRuleList edge) = source edge
  /\ target (withRuleList edge) = target edge
  /\ evaluateEdgeRules (withRuleList edge) state = evaluateEdgeRules edge state.
Proof. repeat split. Qed.

Lemma withRuleList_present edge rs :
  data edge = Some {| rules := Some rs |} -> withRuleList edge = edge.
Proof.
  destruct edge as [i s t d]. simpl. intros ->. reflexivity.
Qed.

Lemma filter_key_fmap (f : FeatureEdge -> FeatureEdge)
    (key : FeatureEdge -> string) (edges : list FeatureEdge) n :
  (forall e, key (f e) = key e) ->
  filter (fun e => key e = n) (f <$> edges)
    = f <$> filter (fun e => key e = n) edges.
Proof.
  intros Hkey. induction edges as [|e edges IH]; [reflexivity|].
  rewrite fmap_cons, !filter_cons, Hkey, IH.
  now destruct (decide (key e = n)).
Qed.

Lemma processEdges_withRuleList state (es : list FeatureEdge) : forall st,
  foldl (processEdge state) st (withRuleList <$> es)
    = foldl (processEdge state) st es.
Proof.
  induction es as [|e es IH]; intros st; [reflexivity|].
  rewrite fmap_cons. simpl. rewrite IH. reflexivity.
Qed.

Lemma iteration_withRuleList state edges st :
  iteration state (outgoingEdges (withRuleList <$> edges)) st
    = iteration state (outgoingEdges edges) st.
Proof.
  unfold iteration, outgoingEdges.
  destruct (queue st) as [|nodeId rest]; [reflexivity|].
  case_bool_decide; [reflexivity|].
  rewrite !bucket_adjacency, filter_key_fmap by reflexivity.
  now rewrite processEdges_withRuleList.
Qed.

Lemma bfs_withRuleList state edges fuel : forall st,
  bfs fuel state (outgoingEdges (withRuleList <$> edges)) st
    = bfs fuel state (outgoingEdges edges) st.
Proof.
  induction fuel as [|fuel IH]; intros st; simpl;
    rewrite iteration_withRuleList;
    destruct (iteration state (outgoingEdges edges) st); auto.
Qed.

Lemma markUnvisited_withRuleList (edges : list FeatureEdge) : forall v,
  markUnvisited (withRuleList <$> edges) v = markUnvisited edges v.
Proof.
  unfold markUnvisited.
  induction edges as [|e edges IH]; intros v; [reflexivity|].
  rewrite fmap_cons. simpl. now rewrite IH.
Qed.

Lemma evaluateFlow_withRuleList nodes edges state :
  evaluateFlow nodes (withRuleList <$> edges) state
    = evaluateFlow nodes edges state.
Proof.
  unfold evaluateFlow.
  assert (Hinit : initialFlowState nodes (withRuleList <$> edges)
                  = initialFlowState nodes edges).
  { unfold initialFlowState, rootNodes, nodesWithIncoming.
    now rewrite <- list_fmap_compose. }
  rewrite Hinit, length_fmap, bfs_withRuleList.
  destruct (bfs _ _ _ _); [|reflexivity].
  now rewrite markUnvisited_withRuleList.
Qed.

(** C10. An edge without [data], or with [data] but without [rules], has
    the rule list of an edge with no rules and passes in every context;
    filling the missing levels with the empty list changes no result of
    [evaluateFlow]; and with unique ids the entry of such an edge says whether
    its source is reachable. *)
Theorem evaluateEdgeRules_absent_rules (nodes : list FeatureNode)
    (edges : list FeatureEdge) (state : SimulationState) :
  (forall i s t,
      evaluateEdgeRules (bareEdge i s t) state = true
      /\ evaluateEdgeRules (emptyDataEdge i s t) state = true
      /\ withRuleList (bareEdge i s t) = mkEdge i s t []
      /\ withRuleList (emptyDataEdge i s t) = mkEdge i s t []
      /\ evaluateEdgeRules (mkEdge i s t []) state = true)
  /\ evaluateFlow nodes (withRuleList <$> edges) state
       = evaluateFlow nodes edges state
  /\ (NoDup (edge_id <$> edges) ->
      exists result,
        evaluateFlow nodes edges state = Some result
        /\ forall e, e ∈ edges ->
             data e = None \/ data e = Some {| rules := None |} ->
             validEdges result !! edge_id e
               = Some (bool_decide (source e ∈ reachableNodes result))).
Proof.
  split; [|split].
  - intros i s t. repeat split.
  - apply evaluateFlow_withRuleList.
  - intros Hnd.
    destruct (evaluateFlow_result nodes edges state)
      as (st & Hev & Hinv & Hq & Hval).
    specialize (Hval Hnd).
    eexists. split; [exact Hev|]. simpl. intros e He Hdata.
    rewrite (final_validEdges_lookup _ _ _ _ _ Hinv Hq Hval He).
    assert (Hp : evaluateEdgeRules e state = true).
    { unfold evaluateEdgeRules, edgeRules. now destruct Hdata as [-> | ->]. }
    rewrite Hp. now rewrite andb_true_r.
Qed.

(** ** The ancestor trace *)

Lemma elem_of_fresh l : forall (seen : gset string) n,
  n ∈ fresh seen l <-> n ∈ l /\ n ∉ seen.
Proof.
  induction l as [|x l IH]; intros seen n; simpl.
  - rewrite elem_of_nil. tauto.
  - destruct (decide (x ∈ seen)) as [Hx|Hx].
    + rewrite IH, elem_of_cons. split; [tauto|].
      intros [[->|Hn] Hnot]; [done | tauto].
    + rewrite elem_of_cons, IH, elem_of_cons.
      destruct (decide (n = x)) as [->|Hne]; [tauto|]. set_solver.
Qed.

Lemma fresh_measure (U : gset string) l : forall (seen : gset string),
  (forall x, x ∈ l -> x ∈ U) ->
  length (fresh seen l) + size (U ∖ (seen ∪ list_to_set l)) = size (U ∖ seen).
Proof.
  induction l as [|x l IH]; intros seen Hl; simpl.
  - f_equal. set_solver.
  - assert (HxU : x ∈ U) by (apply Hl; left).
    assert (Hl' : forall y, y ∈ l -> y ∈ U) by (intros y Hy; apply Hl; now right).
    destruct (decide (x ∈ seen)) as [Hx|Hx].
    + rewrite <- (IH seen Hl'). do 2 f_equal. set_solver.
    + simpl. rewrite <- Nat.add_succ_r.
      replace (seen ∪ ({[x]} ∪ list_to_set l))
        with (seen ∪ {[x]} ∪ list_to_set l) by set_solver.
      rewrite Nat.add_succ_r, (IH (seen ∪ {[x]}) Hl').
      replace (U ∖ seen) with ({[x]} ∪ U ∖ (seen ∪ {[x]})).
      * rewrite (size_union {[x]} (U ∖ (seen ∪ {[x]}))) by set_solver.
        now rewrite size_singleton.
      * apply set_eq. intros y. rewrite elem_of_union, !elem_of_difference,
          elem_of_union, elem_of_singleton.
        destruct (decide (y = x)) as [->|]; tauto.
Qed.

(** The inner loop of the trace. *)
Lemma traceEdges_spec es : forall st,
  let st' := foldl traceEdge st es in
  hNodes st' = hNodes st ∪ list_to_set (source <$> es)
  /\ hEdges st' = hEdges st ∪ list_to_set (edge_id <$> es)
  /\ tqueue st' = tqueue st ++ fresh (hNodes st) (source <$> es).
Proof.
  induction es as [|e es IH]; intros st; cbn [foldl].
  - simpl. split; [|split]; [set_solver | set_solver | now rewrite app_nil_r].
  - destruct (IH (traceEdge st e)) as (H1 & H2 & H3).
    cbn zeta. rewrite H1, H2, H3. rewrite !fmap_cons. cbn [fresh].
    unfold traceEdge. case_bool_decide as Hs.
    + rewrite decide_True by done. simpl.
      split; [|split]; [set_solver | set_solver | done].
    + rewrite decide_False by done. simpl.
      split; [|split]; [set_solver | set_solver | now rewrite <- app_assoc].
Qed.

Lemma traceIteration_inv edges st st' :
  traceIteration (incomingEdges edges) st = Some st' ->
  exists nodeId rest, tqueue st = nodeId :: rest /\
    (let es := filter (fun e => target e = nodeId) edges in
     hNodes st' = hNodes st ∪ list_to_set (source <$> es)
     /\ hEdges st' = hEdges st ∪ list_to_set (edge_id <$> es)
     /\ tqueue st' = rest ++ fresh (hNodes st) (source <$> es)).
Proof.
  unfold traceIteration, incomingEdges. intros Hit.
  destruct (tqueue st) as [|nodeId rest]; [discriminate|].
  exists nodeId, rest. split; [reflexivity|].
  injection Hit as <-. rewrite bucket_adjacency.
  match goal with |- context [foldl _ ?s ?l] =>
    destruct (traceEdges_spec l s) as (H1 & H2 & H3) end.
  simpl in *. done.
Qed.

Lemma traceIteration_measure edges st st' :
  traceIteration (incomingEdges edges) st = Some st' ->
  traceMeasure edges st' < traceMeasure edges st.
Proof.
  intros Hit.
  destruct (traceIteration_inv _ _ _ Hit) as (nodeId & rest & Eq & E1 & E2 & E3).
  unfold traceMeasure. rewrite Eq, E1, E3, length_app.
  pose proof (fresh_measure (sourcesOf edges)
    (source <$> filter (fun e => target e = nodeId) edges) (hNodes st)) as Hm.
  simpl. rewrite <- Hm; [lia|].
  intros x Hx. apply list_elem_of_fmap in Hx as (e & -> & He).
  apply list_elem_of_filter in He as [_ He].
  unfold sourcesOf. apply elem_of_list_to_set. now apply list_elem_of_fmap_2.
Qed.

Lemma initial_TraceInv focus edges :
  TraceInv focus edges
    {| hNodes := {[focus]}; hEdges := ∅; tqueue := [focus] |}.
Proof.
  split; simpl.
  - set_solver.
  - intros n Hn. apply elem_of_singleton in Hn as ->. apply rtc_refl.
  - intros n Hn. set_solver.
  - intros e He Ht Hq. exfalso. apply Hq. set_solver.
  - intros i Hi. set_solver.
Qed.

Lemma traceIteration_TraceInv focus edges st st' :
  TraceInv focus edges st ->
  traceIteration (incomingEdges edges) st = Some st' ->
  TraceInv focus edges st'.
Proof.
  intros [Hfoc Hsound Hq Hclosed Hedges] Hit.
  destruct (traceIteration_inv _ _ _ Hit) as (nodeId & rest & Eq & E1 & E2 & E3).
  rewrite Eq in Hq, Hclosed.
  assert (Hnode : nodeId ∈ hNodes st) by (apply Hq; left).
  assert (Hsrc : forall n,
    n ∈ (source <$> filter (fun e => target e = nodeId) edges)
    <-> exists e, e ∈ edges /\ target e = nodeId /\ source e = n).
  { intros n. rewrite list_elem_of_fmap. split.
    - intros (e & -> & He). apply list_elem_of_filter in He as [Ht He]. eauto.
    - intros (e & He & Ht & <-). exists e. split; [done|].
      apply list_elem_of_filter. done. }
  split; rewrite ?E1, ?E2, ?E3.
  - set_solver.
  - intros n Hn. apply elem_of_union in Hn as [Hn|Hn]; [now apply Hsound|].
    apply elem_of_list_to_set, Hsrc in Hn as (e & He & Ht & <-).
    eapply rtc_l; [|apply (Hsound nodeId Hnode)]. exists e. done.
  - intros n Hn. apply elem_of_union.
    apply elem_of_app in Hn as [Hn|Hn]; [left; apply Hq; now right|].
    apply elem_of_fresh in Hn as [Hn _]. right. now apply elem_of_list_to_set.
  - intros e He Ht Hnq. rewrite elem_of_app, elem_of_fresh in Hnq.
    destruct (decide (target e = nodeId)) as [Hte|Hte].
    + split.
      * apply elem_of_union. right. apply elem_of_list_to_set, Hsrc. eauto.
      * apply elem_of_union. right. apply elem_of_list_to_set.
        apply list_elem_of_fmap_2, list_elem_of_filter. done.
    + apply elem_of_union in Ht as [Ht|Ht].
      * destruct (Hclosed e He Ht) as [H1 H2].
        { rewrite elem_of_cons. intros [H|H]; [done|]. apply Hnq. now left. }
        split; apply elem_of_union; now left.
      * apply elem_of_list_to_set in Ht.
        destruct (decide (target e ∈ hNodes st)) as [Hin|Hnin].
        -- destruct (Hclosed e He Hin) as [H1 H2].
           { rewrite elem_of_cons. intros [H|H]; [done|]. apply Hnq. now left. }
           split; apply elem_of_union; now left.
        -- exfalso. apply Hnq. right. done.
  - intros i Hi. apply elem_of_union in Hi as [Hi|Hi].
    + destruct (Hedges i Hi) as (e & He & Hid & Ht). exists e.
      repeat split; try done. apply elem_of_union. now left.
    + apply elem_of_list_to_set, list_elem_of_fmap in Hi as (e & -> & He).
      apply list_elem_of_filter in He as [Ht He]. exists e.
      repeat split; try done. apply elem_of_union. left. now rewrite Ht.
Qed.

Lemma traceLoop_terminates focus edges : forall fuel st,
  TraceInv focus edges st -> traceMeasure edges st <= fuel ->
  exists st', traceLoop fuel (incomingEdges edges) st = Some st'
              /\ TraceInv focus edges st' /\ tqueue st' = [].
Proof.
  induction fuel as [|fuel IH]; intros st Hinv Hm; simpl;
    destruct (traceIteration (incomingEdges edges) st) as [st'|] eqn:Hit.
  - pose proof (traceIteration_measure _ _ _ Hit). lia.
  - exists st. split; [reflexivity|]. split; [exact Hinv|].
    unfold traceIteration in Hit. now destruct (tqueue st).
  - apply IH; [eapply traceIteration_TraceInv; eauto|].
    pose proof (traceIteration_measure _ _ _ Hit). lia.
  - exists st. split; [reflexivity|]. split; [exact Hinv|].
    unfold traceIteration in Hit. now destruct (tqueue st).
Qed.

Lemma size_list_to_set_le (l : list string) :
  size (list_to_set l : gset string) <= length l.
Proof.
  induction l as [|x l IH].
  - reflexivity.
  - cbn [list_to_set length].
    rewrite (size_union_alt {[x]} (list_to_set l)), size_singleton.
    pose proof (subseteq_size (list_to_set l ∖ {[x]}) (list_to_set l : gset string)).
    apply le_n_S. etrans; [|exact IH]. apply H. set_solver.
Qed.

Lemma initial_traceMeasure focus edges :
  traceMeasure edges {| hNodes := {[focus]}; hEdges := ∅; tqueue := [focus] |}
  <= S (length edges).
Proof.
  unfold traceMeasure, sourcesOf. simpl. apply le_n_S.
  etrans; [apply (subseteq_size _ (list_to_set (source <$> edges))); set_solver|].
  etrans; [apply size_list_to_set_le|]. now rewrite length_fmap.
Qed.

(** The trace returns, and what it returns is the backward closure. *)
Lemma traceAncestors_closure focus edges :
  exists result,
    traceAncestors focus edges = Some result
    /\ (forall n, n ∈ highlightedNodes result
                  <-> rtc (edgeStep edges) n focus)
    /\ (forall i, i ∈ highlightedEdges result
                  <-> exists e, e ∈ edges /\ edge_id e = i
                                /\ rtc (edgeStep edges) (target e) focus).
Proof.
  destruct (traceLoop_terminates focus edges (S (length edges)) _
              (initial_TraceInv focus edges) (initial_traceMeasure focus edges))
    as (st & Hloop & Hinv & Hq).
  unfold traceAncestors. rewrite Hloop. eexists. split; [reflexivity|]. simpl.
  assert (Hcomplete : forall n, rtc (edgeStep edges) n focus -> n ∈ hNodes st).
  { intros n Hn. induction Hn as [|a b c (e & He & <- & <-) _ IH].
    - apply Hinv.
    - apply (t_closed _ _ _ Hinv e He (IH Hloop Hinv)).
      rewrite Hq. apply not_elem_of_nil. }
  split.
  - intros n. split; [apply Hinv | apply Hcomplete].
  - intros i. split.
    + intros Hi. destruct (t_edges _ _ _ Hinv i Hi) as (e & He & Hid & Ht).
      exists e. repeat split; try done. now apply Hinv.
    + intros (e & He & <- & Ht).
      apply (t_closed _ _ _ Hinv e He (Hcomplete _ Ht)).
      rewrite Hq. apply not_elem_of_nil.
Qed.

(** The trace does not look at the rule data of the edges. *)
Lemma traceEdges_stripData (es : list FeatureEdge) : forall st,
  foldl traceEdge st (stripData <$> es) = foldl traceEdge st es.
Proof.
  induction es as [|e es IH]; intros st; [reflexivity|].
  rewrite fmap_cons. simpl. rewrite IH. reflexivity.
Qed.

Lemma traceIteration_stripData edges st :
  traceIteration (incomingEdges (stripData <$> edges)) st
    = traceIteration (incomingEdges edges) st.
Proof.
  unfold traceIteration, incomingEdges.
  destruct (tqueue st) as [|nodeId rest]; [reflexivity|].
  rewrite !bucket_adjacency, filter_key_fmap by reflexivity.
  now rewrite traceEdges_stripData.
Qed.

Lemma traceLoop_stripData edges fuel : forall st,
  traceLoop fuel (incomingEdges (stripData <$> edges)) st
    = traceLoop fuel (incomingEdges edges) st.
Proof.
  induction fuel as [|fuel IH]; intros st; simpl;
    rewrite traceIteration_stripData;
    destruct (traceIteration (incomingEdges edges) st); auto.
Qed.

Lemma traceAncestors_stripData focus edges :
  traceAncestors focus (stripData <$> edges) = traceAncestors focus edges.
Proof.
  unfold traceAncestors. now rewrite length_fmap, traceLoop_stripData.
Qed.

Lemma traceAncestors_root focus edges :
  (forall e, e ∈ edges -> target e <> focus) ->
  traceAncestors focus edges
    = Some {| highlightedNodes := {[focus]}; highlightedEdges := ∅ |}.
Proof.
  intros Hroot. unfold traceAncestors. cbn [traceLoop].
  unfold traceIteration at 1. cbn [tqueue].
  unfold incomingEdges. rewrite bucket_adjacency.
  replace (filter (fun e => target e = focus) edges) with (@nil FeatureEdge).
  - simpl. destruct (length edges); reflexivity.
  - symmetry. induction edges as [|e edges IH]; [reflexivity|].
    rewrite filter_cons, decide_False by (apply Hroot; left).
    apply IH. intros e' He'. apply Hroot. now right.
Qed.

(** C7. The trace is computed from the focus node id and the ids and end
    points of the edges alone: it returns the nodes from which the focus can
    be reached along edges, and the edges that lead into such a node,
    whatever rules the edges carry.  On the chain A -> B -> C -> D, tracing
    from D highlights the four nodes and the three edges; tracing from a node
    without incoming edges highlights that node only. *)
Theorem traceAncestors_backward_closure (focus : string)
    (edges : list FeatureEdge) :
  (exists result,
     traceAncestors focus edges = Some result
     /\ (forall n, n ∈ highlightedNodes result
                   <-> rtc (edgeStep edges) n focus)
     /\ (forall i, i ∈ highlightedEdges result
                   <-> exists e, e ∈ edges /\ edge_id e = i
                                 /\ rtc (edgeStep edges) (target e) focus))
  /\ traceAncestors focus (stripData <$> edges) = traceAncestors focus edges
  /\ traceAncestors "D" chainEdges
       = Some {| highlightedNodes := {[ "A"; "B"; "C"; "D" ]};
                 highlightedEdges := {[ "e1"; "e2"; "e3" ]} |}
  /\ traceAncestors "A" chainEdges
       = Some {| highlightedNodes := {[ "A" ]}; highlightedEdges := ∅ |}
  /\ ((forall e, e ∈ edges -> target e <> focus) ->
      traceAncestors focus edges
        = Some {| highlightedNodes := {[focus]}; highlightedEdges := ∅ |})
  /\ (focus <> "" ->
      traceHighlight true (Some focus) edges = traceAncestors focus edges).
Proof.
  split; [apply traceAncestors_closure|].
  split; [apply traceAncestors_stripData|].
  split; [vm_compute; reflexivity|].
  split; [vm_compute; reflexivity|].
  split; [apply traceAncestors_root|].
  intros Hne. unfold traceHighlight, falsy.
  apply String.eqb_neq in Hne. now rewrite Hne.
Qed.

Lemma traceAncestors_backward_closure_witness :
  traceAncestors "A" chainEdges
    = Some {| highlightedNodes := {[ "A" ]}; highlightedEdges := ∅ |}
  /\ traceHighlight true (Some "D") chainEdges = traceAncestors "D" chainEdges.
Proof.
  destruct (traceAncestors_backward_closure "A" chainEdges)
    as (_ & _ & _ & _ & Hroot & _).
  destruct (traceAncestors_backward_closure "D" chainEdges)
    as (_ & _ & _ & _ & _ & Hguard).
  split.
  - apply Hroot. intros e He Ht.
    repeat (apply elem_of_cons in He as [->|He]; [discriminate Ht|]).
    inversion He.
  - apply Hguard. discriminate.
Defined.

(** ** Sorting *)

Section Sorting.
Context {A : Type} (compare : A -> A -> Z).

Lemma insertBy_Permutation x l : insertBy compare x l ≡ₚ x :: l.
Proof.
  induction l as [|y l IH]; simpl; [done|].
  destruct (compare x y <=? 0)%Z; [done|].
  rewrite IH. apply Permutation_swap.
Qed.

Lemma sortBy_Permutation l : sortBy compare l ≡ₚ l.
Proof.
  induction l as [|x l IH]; simpl; [done|].
  rewrite insertBy_Permutation. now rewrite IH.
Qed.

Hypothesis compare_total :
  forall a b, (0 < compare a b)%Z -> (compare b a <= 0)%Z.
Hypothesis compare_trans :
  forall a b c, (compare a b <= 0)%Z -> (compare b c <= 0)%Z ->
                (compare a c <= 0)%Z.

Lemma insertBy_sorted x l :
  StronglySorted (leBy compare) l ->
  StronglySorted (leBy compare) (insertBy compare x l).
Proof.
  induction 1 as [|y l Hsorted IH Hall]; simpl.
  - repeat constructor.
  - destruct (Z.leb_spec (compare x y) 0) as [Hle|Hgt].
    + constructor; [now constructor|].
      constructor; [exact Hle|].
      eapply Forall_impl; [exact Hall|].
      intros z Hz. unfold leBy in *. eauto.
    + constructor; [exact IH|].
      rewrite insertBy_Permutation. constructor; [|exact Hall].
      unfold leBy. auto.
Qed.

Lemma sortBy_sorted l : StronglySorted (leBy compare) (sortBy compare l).
Proof.
  induction l as [|x l IH]; simpl; [constructor|].
  now apply insertBy_sorted.
Qed.

End Sorting.

(** ** SameValueZero *)

Lemma SFeqb_sym x y : SFeqb x y = true -> SFeqb y x = true.
Proof.
  unfold SFeqb.
  destruct x as [sx|sx| |sx mx ex], y as [sy|sy| |sy my ey]; simpl;
    try discriminate; try reflexivity;
    try (destruct sx, sy; simpl; congruence).
  destruct sx, sy; try discriminate;
    destruct (Z.compare_spec ex ey) as [->|?|?]; try discriminate;
    rewrite Z.compare_refl;
    destruct (Pos.compare_cont Eq mx my) eqn:E; try discriminate;
    apply Pos.compare_eq in E; subst; now rewrite Pos.compare_cont_refl.
Qed.

Lemma SFeqb_refl x : isNaN x = false -> SFeqb x x = true.
Proof.
  unfold SFeqb. destruct x as [s|s| |s m e]; simpl; try discriminate;
    try reflexivity; intros _.
  - now destruct s.
  - destruct s; rewrite Z.compare_refl, Pos.compare_cont_refl; reflexivity.
Qed.

Lemma sameValueZero_sym a b : sameValueZero a b = sameValueZero b a.
Proof.
  assert (Himp : forall a b, sameValueZero a b = true -> sameValueZero b a = true).
  { intros [s|x|p] [t|y|q]; simpl; try discriminate.
    - rewrite !String.eqb_eq. congruence.
    - rewrite !orb_true_iff, !andb_true_iff.
      intros [H|[H1 H2]]; [left; now apply SFeqb_sym | now right].
    - destruct p, q; simpl; congruence. }
  destruct (sameValueZero a b) eqn:E1, (sameValueZero b a) eqn:E2;
    try reflexivity.
  - apply Himp in E1. congruence.
  - apply Himp in E2. congruence.
Qed.

Lemma sameValueZero_normalize_l v : sameValueZero (normalizeZero v) v = true.
Proof.
  destruct v as [s|x|p]; simpl.
  - apply String.eqb_refl.
  - destruct x as [s|s| |s m e]; simpl; try reflexivity.
    + now destruct s.
    + rewrite SFeqb_refl; reflexivity.
  - now destruct p.
Qed.

Lemma sameValueZero_normalize_r x v :
  sameValueZero x (normalizeZero v) = sameValueZero x v.
Proof.
  destruct v as [s|y|p]; try reflexivity.
  destruct y as [s|s| |s m e]; reflexivity.
Qed.

Lemma sameValueZero_type a b :
  sameValueZero a b = true ->
  isBoolean a = isBoolean b /\ isNumber a = isNumber b.
Proof. destruct a, b; simpl; try discriminate; done. Qed.

Lemma normalizeZero_type v :
  isBoolean (normalizeZero v) = isBoolean v
  /\ isNumber (normalizeZero v) = isNumber v.
Proof. destruct v as [s|x|p]; try done. now destruct x. Qed.

Lemma Distinct_snoc s v :
  Distinct s -> (forall x, x ∈ s -> sameValueZero x v = false) ->
  Distinct (s ++ [v]).
Proof.
  induction 1 as [|x l Hx Hl IH]; intros Hv; simpl.
  - constructor; [intros y Hy; inversion Hy | constructor].
  - constructor.
    + intros y Hy. apply elem_of_app in Hy as [Hy|Hy]; [now apply Hx|].
      apply list_elem_of_singleton in Hy as ->. apply Hv. left.
    + apply IH. intros y Hy. apply Hv. now right.
Qed.

Lemma Distinct_Permutation l l' : l ≡ₚ l' -> Distinct l -> Distinct l'.
Proof.
  induction 1 as [|x l l' Hperm IH|x y l|l1 l2 l3 _ IH1 _ IH2]; intros Hd.
  - constructor.
  - inversion Hd as [|? ? Hx Hl]; subst. constructor; [|now apply IH].
    intros y Hy. apply Hx. now rewrite Hperm.
  - inversion Hd as [|? ? Hy Hl]; subst.
    inversion Hl as [|? ? Hx Hl']; subst.
    constructor; [|constructor; [|exact Hl']].
    + intros z Hz. apply elem_of_cons in Hz as [->|Hz].
      * rewrite sameValueZero_sym. apply Hy. left.
      * now apply Hx.
    + intros z Hz. apply Hy. now right.
  - auto.
Qed.

Lemma existsb_false {B} (f : B -> bool) l x :
  existsb f l = false -> x ∈ l -> f x = false.
Proof.
  induction l as [|y l IH]; intros He Hx; [inversion Hx|].
  simpl in He. apply orb_false_iff in He as [Hy Hl].
  apply elem_of_cons in Hx as [->|Hx]; auto.
Qed.

Lemma existsb_true {B} (f : B -> bool) l :
  existsb f l = true -> exists x, x ∈ l /\ f x = true.
Proof.
  induction l as [|y l IH]; simpl; [discriminate|].
  intros He. apply orb_true_iff in He as [Hy|Hl].
  - exists y. split; [left | done].
  - destruct (IH Hl) as (x & Hx & Hf). exists x. split; [now right | done].
Qed.

(** The set built from a list of values: pairwise distinct, made of
    observed values, and covering each of them. *)
Lemma setAdd_fold vs :
  let s := foldl setAdd [] vs in
  Distinct s
  /\ (forall x, x ∈ s -> exists v, v ∈ vs /\ x = normalizeZero v)
  /\ (forall v, v ∈ vs -> exists x, x ∈ s /\ sameValueZero x v = true).
Proof.
  induction vs as [|v vs IH] using rev_ind; cbn zeta.
  - simpl. split; [constructor|]. split; intros x Hx; inversion Hx.
  - rewrite foldl_app. cbn [foldl]. destruct IH as (Hd & Hfrom & Hcover).
    unfold setAdd at 1 3 5.
    destruct (existsb _ _) eqn:Hex.
    + split; [exact Hd|]. split.
      * intros x Hx. destruct (Hfrom x Hx) as (w & Hw & ->).
        exists w. split; [apply elem_of_app; now left | done].
      * intros w Hw. apply elem_of_app in Hw as [Hw|Hw]; [now apply Hcover|].
        apply list_elem_of_singleton in Hw as ->. now apply existsb_true in Hex.
    + split; [|split].
      * apply Distinct_snoc; [exact Hd|]. intros x Hx.
        rewrite sameValueZero_normalize_r.
        apply (existsb_false _ _ x Hex Hx).
      * intros x Hx. apply elem_of_app in Hx as [Hx|Hx].
        -- destruct (Hfrom x Hx) as (w & Hw & ->).
           exists w. split; [apply elem_of_app; now left | done].
        -- apply list_elem_of_singleton in Hx as ->.
           exists v. split; [apply elem_of_app; right; left | done].
      * intros w Hw. apply elem_of_app in Hw as [Hw|Hw].
        -- destruct (Hcover w Hw) as (x & Hx & Hs).
           exists x. split; [apply elem_of_app; now left | done].
        -- apply list_elem_of_singleton in Hw as ->.
           exists (normalizeZero v).
           split; [apply elem_of_app; right; left|].
           apply sameValueZero_normalize_l.
Qed.

(** ** The condition map in closed form *)

Lemma fresh_snoc l c : forall seen : gset string,
  fresh seen (l ++ [c])
    = fresh seen l ++ (if decide (c ∈ seen \/ c ∈ l) then [] else [c]).
Proof.
  induction l as [|x l IH]; intros seen; simpl.
  - destruct (decide (c ∈ seen)) as [Hc|Hc].
    + now rewrite decide_True by (now left).
    + rewrite decide_False; [done|]. intros [H|H]; [done | inversion H].
  - destruct (decide (x ∈ seen)) as [Hx|Hx]; rewrite IH.
    + f_equal. destruct (decide (c ∈ seen \/ c ∈ l)) as [H|H].
      * rewrite decide_True; [done|]. destruct H; [now left | right; now right].
      * rewrite decide_False; [done|]. intros [H'|H']; [tauto|].
        apply elem_of_cons in H' as [->|H']; tauto.
    + simpl. do 2 f_equal.
      destruct (decide (c ∈ seen ∪ {[x]} \/ c ∈ l)) as [H|H].
      * rewrite decide_True; [done|]. rewrite elem_of_cons. set_solver.
      * rewrite decide_False; [done|]. rewrite elem_of_cons. set_solver.
Qed.

Lemma NoDup_fresh l : forall seen : gset string, NoDup (fresh seen l).
Proof.
  induction l as [|x l IH]; intros seen; simpl; [constructor|].
  destruct (decide (x ∈ seen)); [apply IH|].
  constructor; [|apply IH]. rewrite elem_of_fresh. set_solver.
Qed.

Lemma mapHas_keys (g : string -> list RuleValue) ks c :
  mapHas ((fun k => (k, g k)) <$> ks) c = bool_decide (c ∈ ks).
Proof.
  unfold mapHas. induction ks as [|k ks IH]; [reflexivity|].
  rewrite fmap_cons. cbn [existsb fst]. rewrite IH.
  destruct (String.eqb_spec k c) as [->|Hne]; simpl.
  - symmetry. apply bool_decide_eq_true_2. left.
  - apply bool_decide_ext. rewrite elem_of_cons. naive_solver.
Qed.

Lemma mapAdd_keys (g : string -> list RuleValue) ks c v :
  mapAdd ((fun k => (k, g k)) <$> ks) c v
    = (fun k => (k, if decide (c = k) then setAdd (g k) v else g k)) <$> ks.
Proof.
  unfold mapAdd. rewrite <- list_fmap_compose.
  apply list_fmap_ext. intros i k _. simpl.
  destruct (String.eqb_spec k c) as [->|Hne].
  - now rewrite decide_True.
  - now rewrite decide_False by congruence.
Qed.

Lemma ruleValues_snoc rs r k :
  ruleValues (rs ++ [r]) k
    = ruleValues rs k ++ (if decide (condition r = k) then [value r] else []).
Proof.
  unfold ruleValues. rewrite filter_app, fmap_app, filter_cons, filter_nil.
  now destruct (decide (condition r = k)).
Qed.

Lemma ruleValues_unseen rs c :
  c ∉ (condition <$> rs) -> ruleValues rs c = [].
Proof.
  unfold ruleValues. induction rs as [|r rs IH]; intros Hc; [reflexivity|].
  rewrite fmap_cons, not_elem_of_cons in Hc. destruct Hc as [Hne Hc].
  rewrite filter_cons, decide_False by congruence. now apply IH.
Qed.

Lemma addRule_canonMap rs r :
  addRule (canonMap rs) r = canonMap (rs ++ [r]).
Proof.
  unfold addRule, canonMap.
  rewrite mapHas_keys, (fmap_app condition rs [r]).
  change (condition <$> [r]) with [condition r]. rewrite fresh_snoc.
  set (G := fun k => foldl setAdd [] (ruleValues rs k)).
  assert (Hstep : forall ks : list string,
    (fun k => (k, if decide (condition r = k) then setAdd (G k) (value r) else G k))
      <$> ks
    = (fun c => (c, foldl setAdd [] (ruleValues (rs ++ [r]) c))) <$> ks).
  { intros ks. apply list_fmap_ext. intros i k _. simpl. f_equal.
    rewrite ruleValues_snoc, foldl_app. unfold G.
    now destruct (decide (condition r = k)). }
  case_bool_decide as Hseen.
  - rewrite (mapAdd_keys G).
    rewrite decide_True by (right; apply elem_of_fresh in Hseen; tauto).
    rewrite app_nil_r. apply Hstep.
  - assert (Hnot : condition r ∉ (condition <$> rs)).
    { intros H. apply Hseen. apply elem_of_fresh. set_solver. }
    rewrite decide_False by (intros [H|H]; [set_solver | done]).
    replace (((fun c => (c, foldl setAdd [] (ruleValues rs c)))
                <$> fresh ∅ (condition <$> rs)) ++ [(condition r, [])])
      with ((fun k => (k, G k)) <$> (fresh ∅ (condition <$> rs) ++ [condition r])).
    + rewrite (mapAdd_keys G). apply Hstep.
    + rewrite fmap_app. f_equal. simpl. unfold G.
      now rewrite ruleValues_unseen.
Qed.

Lemma foldl_addRule_canonMap rs : foldl addRule [] rs = canonMap rs.
Proof.
  induction rs as [|r rs IH] using rev_ind; [reflexivity|].
  now rewrite foldl_app, IH, <- addRule_canonMap.
Qed.

Lemma conditionMap_canonMap edges :
  conditionMap edges = canonMap (allRules edges).
Proof.
  rewrite <- foldl_addRule_canonMap. unfold conditionMap, allRules.
  generalize (@nil (string * list RuleValue)).
  induction edges as [|e edges IH]; intros m; [reflexivity|].
  rewrite fmap_cons. simpl. now rewrite foldl_app, IH.
Qed.

Lemma elem_of_allRules edges r :
  r ∈ allRules edges <-> exists e, e ∈ edges /\ r ∈ edgeRules e.
Proof.
  unfold allRules. induction edges as [|e edges IH]; simpl.
  - rewrite elem_of_nil. split; [done | intros (e & He & _); inversion He].
  - rewrite elem_of_app, IH. split.
    + intros [H|(e' & He' & H)]; [exists e; split; [left | done]|].
      exists e'. split; [now right | done].
    + intros (e' & He' & H). apply elem_of_cons in He' as [->|He'];
        [now left | right; eauto].
Qed.

(** ** Code-unit order is an admissible comparator *)

Lemma string_compare_le_trans a : forall b c,
  String.compare a b <> Gt -> String.compare b c <> Gt ->
  String.compare a c <> Gt.
Proof.
  induction a as [|x a IH]; intros [|y b] [|z c]; simpl; try done.
  unfold Ascii.compare.
  destruct (N.compare_spec (Ascii.N_of_ascii x) (Ascii.N_of_ascii y)) as [Exy|Lxy|Gxy];
    destruct (N.compare_spec (Ascii.N_of_ascii y) (Ascii.N_of_ascii z)) as [Eyz|Lyz|Gyz];
    destruct (N.compare_spec (Ascii.N_of_ascii x) (Ascii.N_of_ascii z)) as [Exz|Lxz|Gxz];
    try done; try lia.
  apply IH.
Qed.

Lemma codeUnitCompare_le a b :
  (codeUnitCompare a b <= 0)%Z <-> String.compare a b <> Gt.
Proof.
  unfold codeUnitCompare. destruct (String.compare a b); split; try done; lia.
Qed.

Lemma codeUnitCompare_consistent : consistentComparator codeUnitCompare.
Proof.
  split.
  - intros a b. unfold codeUnitCompare.
    rewrite (String.compare_antisym b a).
    destruct (String.compare a b); simpl; lia.
  - intros a b c. rewrite !codeUnitCompare_le. apply string_compare_le_trans.
Qed.

(** ** Condition discovery *)

Lemma inferType_cases vs :
  (inferType vs = type_boolean <-> forallb isBoolean vs = true)
  /\ (inferType vs = type_number
      <-> forallb isBoolean vs = false /\ forallb isNumber vs = true)
  /\ (inferType vs = type_enum
      <-> forallb isBoolean vs = false /\ forallb isNumber vs = false).
Proof.
  unfold inferType.
  destruct (forallb isBoolean vs), (forallb isNumber vs);
    repeat split; try done; intros [? ?]; done.
Qed.

Lemma setAdd_fold_forallb (p : RuleValue -> bool) vs :
  (forall a b, sameValueZero a b = true -> p a = p b) ->
  (forall v, p (normalizeZero v) = p v) ->
  forallb p (foldl setAdd [] vs) = true <-> forall w, w ∈ vs -> p w = true.
Proof.
  intros Hsame Hnorm.
  destruct (setAdd_fold vs) as (_ & Hfrom & Hcover). cbn zeta in *.
  rewrite forallb_forall. split.
  - intros H w Hw. destruct (Hcover w Hw) as (x & Hx & Hs).
    rewrite <- (Hsame x w Hs). apply H. now apply list_elem_of_In.
  - intros H x Hx. apply list_elem_of_In in Hx.
    destruct (Hfrom x Hx) as (w & Hw & ->). rewrite Hnorm. now apply H.
Qed.

Lemma forallb_false_iff {B} (p : B -> bool) l :
  forallb p l = false <-> ~ (forall w, w ∈ l -> p w = true).
Proof.
  rewrite <- not_true_iff_false, forallb_forall.
  split; intros H H'; apply H; intros x Hx; apply H'; now apply list_elem_of_In.
Qed.

Lemma ageEdges_conditionMap :
  conditionMap ageEdges
    = [("age", [VNumber (numberOfZ 30); VNumber (numberOfZ 25);
                VString "unknown"])].
Proof. vm_compute. reflexivity. Qed.

(** C6, as stated, fails on its example: whatever the platform functions
    are, the options of ["age"] are the observed values themselves, the
    numbers 25 and 30 among them, never the strings "25" and "30". *)
Lemma discoverConditions_string_options_counterexample :
  ~ exists localeCompare numberToString,
      discoverConditions localeCompare numberToString ageEdges
        = [{| name := "age"; type := type_enum;
              options := [VString "25"; VString "30"; VString "unknown"] |}].
Proof.
  intros (lc & nts & H).
  pose proof (sortBy_Permutation (compareNames lc)
                (schemaOf lc nts <$> conditionMap ageEdges)) as Hperm.
  fold (discoverConditions lc nts ageEdges) in Hperm.
  rewrite H, ageEdges_conditionMap in Hperm.
  apply Permutation_singleton_l in Hperm.
  assert (Hopts : [VString "25"; VString "30"; VString "unknown"]
                  = sortBy (compareValues lc nts)
                      [VNumber (numberOfZ 30); VNumber (numberOfZ 25);
                       VString "unknown"]).
  { apply (f_equal (fun l => match l with s :: _ => options s | [] => [] end))
      in Hperm. exact Hperm. }
  assert (Hin : VNumber (numberOfZ 30)
                ∈ sortBy (compareValues lc nts)
                    [VNumber (numberOfZ 30); VNumber (numberOfZ 25);
                     VString "unknown"]).
  { rewrite sortBy_Permutation. left. }
  rewrite <- Hopts in Hin.
  repeat (apply elem_of_cons in Hin as [Hin|Hin]; [discriminate Hin|]).
  inversion Hin.
Qed.

Lemma leBy_projection {B} (compare : string -> string -> Z) (f : B -> string) :
  consistentComparator compare ->
  (forall a b, (0 < compare (f a) (f b))%Z -> (compare (f b) (f a) <= 0)%Z)
  /\ (forall a b c, (compare (f a) (f b) <= 0)%Z ->
                    (compare (f b) (f c) <= 0)%Z ->
                    (compare (f a) (f c) <= 0)%Z).
Proof. intros [Htot Htrans]. split; eauto. Qed.

(** The entries of the result, before they are sorted by name. *)
Lemma discoverConditions_entries localeCompare numberToString edges :
  discoverConditions localeCompare numberToString edges
    ≡ₚ (fun c =>
          {| name := c;
             type := inferType (foldl setAdd [] (observedValues edges c));
             options := sortBy (compareValues localeCompare numberToString)
                          (foldl setAdd [] (observedValues edges c)) |})
        <$> fresh ∅ (condition <$> allRules edges).
Proof.
  unfold discoverConditions. rewrite sortBy_Permutation, conditionMap_canonMap.
  unfold canonMap. now rewrite <- list_fmap_compose.
Qed.

(** C6, amended. [discoverConditions] returns one entry per distinct
    condition name, sorted by [localeCompare] on the names; the options of an
    entry are the observed values of its condition, deduplicated as a [Set]
    does and sorted by [localeCompare] on their string forms; the type is
    boolean when every observed value is a boolean, else number when every one
    is a number, else enum.  With values 30, 25 and "unknown" for ["age"] the
    entry is an enum whose options are the numbers 25 and 30 followed by the
    string "unknown". *)
Theorem discoverConditions_schema (localeCompare : string -> string -> Z)
    (numberToString : number -> string) (edges : list FeatureEdge) :
  consistentComparator localeCompare ->
  let result := discoverConditions localeCompare numberToString edges in
  NoDup (name <$> result)
  /\ (forall c, c ∈ (name <$> result)
               <-> exists e r, e ∈ edges /\ r ∈ edgeRules e /\ condition r = c)
  /\ StronglySorted (leBy (compareNames localeCompare)) result
  /\ (forall s, s ∈ result ->
        let observed := observedValues edges (name s) in
        Distinct (options s)
        /\ (forall v, v ∈ options s ->
                      exists w, w ∈ observed /\ v = normalizeZero w)
        /\ (forall w, w ∈ observed ->
                      exists v, v ∈ options s /\ sameValueZero v w = true)
        /\ StronglySorted (leBy (compareValues localeCompare numberToString))
                          (options s)
        /\ (type s = type_boolean
            <-> forall w, w ∈ observed -> isBoolean w = true)
        /\ (type s = type_number
            <-> ~ (forall w, w ∈ observed -> isBoolean w = true)
                /\ forall w, w ∈ observed -> isNumber w = true)
        /\ (type s = type_enum
            <-> ~ (forall w, w ∈ observed -> isBoolean w = true)
                /\ ~ (forall w, w ∈ observed -> isNumber w = true)))
  /\ (numberToString (numberOfZ 25) = "25" ->
      numberToString (numberOfZ 30) = "30" ->
      ordersBefore localeCompare "25" "30" ->
      ordersBefore localeCompare "30" "unknown" ->
      ordersBefore localeCompare "25" "unknown" ->
      discoverConditions localeCompare numberToString ageEdges
        = [{| name := "age"; type := type_enum;
              options := [VNumber (numberOfZ 25); VNumber (numberOfZ 30);
                          VString "unknown"] |}]).
Proof.
  intros Hcons result.
  pose proof (discoverConditions_entries localeCompare numberToString edges)
    as Hperm. fold result in Hperm.
  assert (Hnames : name <$> result ≡ₚ fresh ∅ (condition <$> allRules edges)).
  { rewrite Hperm, <- list_fmap_compose. simpl.
    now rewrite list_fmap_id. }
  split; [|split; [|split; [|split]]].
  - rewrite Hnames. apply NoDup_fresh.
  - intros c. rewrite Hnames, elem_of_fresh, list_elem_of_fmap. split.
    + intros [(r & -> & Hr) _]. apply elem_of_allRules in Hr as (e & He & Hr).
      eauto.
    + intros (e & r & He & Hr & <-). split; [|set_solver].
      exists r. split; [done|]. apply elem_of_allRules. eauto.
  - destruct (leBy_projection localeCompare name Hcons) as [Htot Htrans].
    apply (sortBy_sorted (compareNames localeCompare) Htot Htrans).
  - intros s Hs observed. rewrite Hperm in Hs.
    apply list_elem_of_fmap in Hs as (c & -> & _). cbn [name options type] in *.
    subst observed.
    destruct (setAdd_fold (observedValues edges c)) as (Hd & Hfrom & Hcover).
    cbn zeta in *.
    pose proof (sortBy_Permutation (compareValues localeCompare numberToString)
                  (foldl setAdd [] (observedValues edges c))) as Hsort.
    destruct (inferType_cases (foldl setAdd [] (observedValues edges c)))
      as (Hb & Hn & He).
    pose proof (setAdd_fold_forallb isBoolean (observedValues edges c)
      (fun a b H => proj1 (sameValueZero_type a b H))
      (fun v => proj1 (normalizeZero_type v))) as Hallb.
    pose proof (setAdd_fold_forallb isNumber (observedValues edges c)
      (fun a b H => proj2 (sameValueZero_type a b H))
      (fun v => proj2 (normalizeZero_type v))) as Halln.
    split; [|split; [|split; [|split; [|split; [|split]]]]].
    + eapply Distinct_Permutation; [symmetry; exact Hsort | exact Hd].
    + intros v Hv. rewrite Hsort in Hv. now apply Hfrom.
    + intros w Hw. destruct (Hcover w Hw) as (v & Hv & Hsame).
      exists v. split; [now rewrite Hsort | done].
    + destruct (leBy_projection localeCompare (toString numberToString) Hcons)
        as [Htot Htrans].
      apply (sortBy_sorted (compareValues localeCompare numberToString)
               Htot Htrans).
    + now rewrite Hb, Hallb.
    + rewrite Hn, <- Hallb, <- Halln.
      now rewrite <- not_true_iff_false.
    + rewrite He, <- Hallb, <- Halln.
      now rewrite <- !not_true_iff_false.
  - intros H25 H30 [L1 G1] [L2 G2] [L3 G3].
    assert (Hsorted :
      sortBy (compareValues localeCompare numberToString)
        [VNumber (numberOfZ 30); VNumber (numberOfZ 25); VString "unknown"]
      = [VNumber (numberOfZ 25); VNumber (numberOfZ 30); VString "unknown"]).
    { cbn [sortBy foldr insertBy]. unfold compareValues. cbn [toString].
      rewrite H25.
      destruct (Z.leb_spec (localeCompare "25" "unknown") 0); [|lia].
      cbn [insertBy toString]. rewrite H25, H30.
      destruct (Z.leb_spec (localeCompare "30" "25") 0); [lia|].
      destruct (Z.leb_spec (localeCompare "30" "unknown") 0); [|lia].
      reflexivity. }
    unfold discoverConditions. rewrite ageEdges_conditionMap.
    cbn [fmap list_fmap]. unfold schemaOf. cbn [fst snd].
    rewrite Hsorted. reflexivity.
Qed.

Lemma discoverConditions_schema_witness :
  consistentComparator codeUnitCompare
  /\ discoverConditions codeUnitCompare (integerToString (fun _ => "")) ageEdges
     = [{| name := "age"; type := type_enum;
           options := [VNumber (numberOfZ 25); VNumber (numberOfZ 30);
                       VString "unknown"] |}].
Proof.
  split; [exact codeUnitCompare_consistent|].
  destruct (discoverConditions_schema codeUnitCompare
              (integerToString (fun _ => "")) ageEdges
              codeUnitCompare_consistent) as (_ & _ & _ & _ & Hexample).
  apply Hexample; [reflexivity | reflexivity | split; reflexivity ..].
Defined.

Lemma evaluateEdgeRules_absent_rules_witness :
  NoDup (edge_id <$> bareEdges)
  /\ exists result,
       evaluateFlow cycleNodes bareEdges guestState = Some result
       /\ forall e, e ∈ bareEdges ->
            data e = None \/ data e = Some {| rules := None |} ->
            validEdges result !! edge_id e
              = Some (bool_decide (source e ∈ reachableNodes result)).
Proof.
  assert (Hnd : NoDup (edge_id <$> bareEdges)).
  { compute_done. }
  split; [exact Hnd|].
  destruct (evaluateEdgeRules_absent_rules cycleNodes bareEdges guestState)
    as (_ & _ & Hgate).
  exact (Hgate Hnd).
Defined.

(** * Further properties *)

(** ** Reachability as paths of passing edges *)

Lemma initial_PathInv nodes edges state :
  PathInv nodes edges state (initialFlowState nodes edges).
Proof.
  intros n Hn.
  apply (inv_reach _ _ _ _ (initial_FlowInv nodes edges state)) in Hn
    as [Hn|(e & _ & He & _)].
  - exists n. split; [exact Hn | apply rtc_refl].
  - simpl in He. set_solver.
Qed.

Lemma iteration_PathInv nodes edges state st st' :
  FlowInv nodes edges state st ->
  PathInv nodes edges state st ->
  iteration state (outgoingEdges edges) st = Some st' ->
  PathInv nodes edges state st'.
Proof.
  intros Hinv Hpath Hit n Hn.
  destruct (iteration_inv _ _ _ _ Hit (inv_queue _ _ _ _ Hinv))
    as (nodeId & rest & Eq & Hcase).
  destruct Hcase as [(Hvis & E1 & _) | (Hvis & E1 & _)];
    rewrite E1 in Hn; [now apply Hpath|].
  apply elem_of_union in Hn as [Hn|Hn]; [now apply Hpath|].
  apply elem_of_list_to_set, list_elem_of_fmap in Hn as (e & -> & He).
  unfold passing in He. apply list_elem_of_filter in He as [Hp He].
  apply list_elem_of_filter in He as [Hs He].
  destruct (Hpath nodeId) as (r & Hr & Hrn).
  { apply (inv_queue _ _ _ _ Hinv). rewrite Eq. left. }
  exists r. split; [exact Hr|].
  eapply rtc_r; [exact Hrn|]. exists e. done.
Qed.

Lemma evaluateFlow_paths nodes edges state :
  exists st,
    evaluateFlow nodes edges state
      = Some {| reachableNodes := reachable st;
                validEdges := markUnvisited edges (valid st) |}
    /\ FlowInv nodes edges state st /\ queue st = []
    /\ PathInv nodes edges state st.
Proof.
  destruct (bfs_terminates state edges
    (fun st => FlowInv nodes edges state st /\ PathInv nodes edges state st))
    with (fuel := length nodes + length edges)
         (st := initialFlowState nodes edges)
    as (st & Hb & [Hinv Hpath] & Hq).
  - intros st [Hinv _]. apply Hinv.
  - intros st st' [Hinv Hpath] Hit. split.
    + eapply iteration_FlowInv; eauto.
    + eapply iteration_PathInv; eauto.
  - split; [apply initial_FlowInv | apply initial_PathInv].
  - apply initial_flowMeasure.
  - exists st. unfold evaluateFlow. rewrite Hb. done.
Qed.

(** The returned set, as a property of any result. *)
Lemma reachableNodes_paths nodes edges state result :
  evaluateFlow nodes edges state = Some result ->
  forall n, n ∈ reachableNodes result
            <-> exists r, r ∈ rootIds nodes edges
                          /\ rtc (passStep state edges) r n.
Proof.
  intros Hev n.
  destruct (evaluateFlow_paths nodes edges state) as (st & Hev' & Hinv & Hq & Hpath).
  rewrite Hev' in Hev. injection Hev as <-. simpl. split; [apply Hpath|].
  intros (r & Hr & Hrn). revert n Hrn.
  apply (rtc_ind_r (fun n => n ∈ reachable st) r).
  - apply (inv_reach _ _ _ _ Hinv). now left.
  - intros a b _ (e & He & Hs & Ht & Hp) IH.
    apply (inv_reach _ _ _ _ Hinv). right. exists e.
    repeat split; try done. rewrite Hs.
    now apply (FlowInv_final _ _ _ _ _ Hinv Hq).
Qed.

(** X1. The reachable set of [evaluateFlow] is exactly the set of ids that a
    path of rule-satisfied edges connects to a root id. *)
Theorem evaluateFlow_reachable_paths (nodes : list FeatureNode)
    (edges : list FeatureEdge) (state : SimulationState) :
  exists result,
    evaluateFlow nodes edges state = Some result
    /\ forall n, n ∈ reachableNodes result
                 <-> exists r, r ∈ rootIds nodes edges
                               /\ rtc (passStep state edges) r n.
Proof.
  destruct (evaluateFlow_paths nodes edges state) as (st & Hev & _).
  eexists. split; [exact Hev|].
  now apply (reachableNodes_paths nodes edges state).
Qed.

(** ** What the canvas shows *)

Lemma reachableNodes_empty_iff nodes edges state result :
  evaluateFlow nodes edges state = Some result ->
  reachableNodes result = ∅ <-> rootNodes nodes edges = [].
Proof.
  intros Hev. pose proof (reachableNodes_paths _ _ _ _ Hev) as Hpaths. split.
  - intros Hempty. destruct (rootNodes nodes edges) as [|n l] eqn:E; [done|].
    exfalso. apply (not_elem_of_empty (C := gset string) (node_id n)).
    rewrite <- Hempty. apply Hpaths. exists (node_id n).
    split; [|apply rtc_refl]. unfold rootIds. rewrite E. set_solver.
  - intros Hroots. apply set_eq. intros n. rewrite Hpaths. split.
    + intros (r & Hr & _). unfold rootIds in Hr. rewrite Hroots in Hr. set_solver.
    + intros Hn. set_solver.
Qed.

Lemma flowEvaluation_total st : exists result, flowEvaluation st = Some result.
Proof.
  unfold flowEvaluation. destruct (s_isSimulating st); simpl; [|eauto].
  destruct (evaluateFlow_result (s_nodes st) (s_edges st) (s_simulationState st))
    as (fs & Hev & _). eauto.
Qed.

(** X2. A node is drawn as reachable when the simulation is off, when it is
    in the reachable set, and also whenever the graph has no root: the
    reachable set is then empty and the component treats an empty set as "show
    everything". *)
Theorem nodeIsReachable_shown (st : HookState) :
  exists result,
    flowEvaluation st = Some result
    /\ (reachableNodes result = ∅
        <-> s_isSimulating st = false
            \/ rootNodes (s_nodes st) (s_edges st) = [])
    /\ forall i,
         nodeIsReachable (s_isSimulating st) (reachableNodes result) i = true
         <-> s_isSimulating st = false
             \/ rootNodes (s_nodes st) (s_edges st) = []
             \/ i ∈ reachableNodes result.
Proof.
  destruct (flowEvaluation_total st) as (result & Hres).
  exists result. split; [exact Hres|].
  unfold flowEvaluation in Hres. unfold nodeIsReachable.
  destruct (s_isSimulating st) eqn:Hsim; simpl in *.
  - pose proof (reachableNodes_empty_iff _ _ _ _ Hres) as Hempty.
    split.
    + rewrite Hempty. split; [now right | intros [H|H]; done].
    + intros i. rewrite orb_true_iff, Nat.eqb_eq, bool_decide_eq_true.
      rewrite <- Hempty. split.
      * intros [H|H]; [|tauto]. right. left.
        now apply leibniz_equiv, size_empty_iff.
      * intros [H|[H|H]]; [done| |tauto]. left. rewrite H. apply size_empty.
  - injection Hres as <-. simpl. split; [tauto|]. intros i. tauto.
Qed.

(** X3. The validity an edge is drawn with: [true] for every edge while the
    simulation is off; while it is on, the entry [evaluateFlow] has recorded
    for the id of the edge, so the default is never taken for an edge of the
    graph. *)
Theorem edgeIsValid_shown (st : HookState) :
  exists result,
    flowEvaluation st = Some result
    /\ forall e, e ∈ s_edges st ->
         if s_isSimulating st
         then validEdges result !! edge_id e
              = Some (edgeIsValid (validEdges result) e)
         else edgeIsValid (validEdges result) e = true.
Proof.
  unfold flowEvaluation.
  destruct (s_isSimulating st) eqn:Hsim; simpl.
  - destruct (evaluateFlow_result (s_nodes st) (s_edges st) (s_simulationState st))
      as (fs & Hev & Hinv & _).
    eexists. split; [exact Hev|]. simpl. intros e He.
    assert (Hdom : edge_id e ∈ dom (markUnvisited (s_edges st) (valid fs))).
    { rewrite (final_validEdges_dom _ _ _ _ Hinv).
      apply elem_of_list_to_set. now apply list_elem_of_fmap_2. }
    apply elem_of_dom in Hdom as [b Hb]. unfold edgeIsValid. rewrite Hb. simpl.
    now destruct b.
  - eexists. split; [reflexivity|]. intros e _. reflexivity.
Qed.

(** X4. While simulating a graph whose edge ids are unique, an edge drawn as
    valid has its source and its target in the reachable set, so both ends
    are drawn as reachable. *)
Theorem edgeIsValid_ends_reachable (st : HookState) (e : FeatureEdge) :
  s_isSimulating st = true ->
  NoDup (edge_id <$> s_edges st) ->
  e ∈ s_edges st ->
  exists result,
    flowEvaluation st = Some result
    /\ (edgeIsValid (validEdges result) e = true ->
        source e ∈ reachableNodes result
        /\ target e ∈ reachableNodes result
        /\ nodeIsReachable true (reachableNodes result) (source e) = true
        /\ nodeIsReachable true (reachableNodes result) (target e) = true).
Proof.
  intros Hsim Hnd He. unfold flowEvaluation. rewrite Hsim. simpl.
  destruct (evaluateFlow_result (s_nodes st) (s_edges st) (s_simulationState st))
    as (fs & Hev & Hinv & Hq & Hval).
  specialize (Hval Hnd).
  eexists. split; [exact Hev|]. simpl.
  unfold edgeIsValid, nodeIsReachable.
  rewrite (final_validEdges_lookup _ _ _ _ _ Hinv Hq Hval He). simpl.
  destruct (decide (source e ∈ reachable fs)) as [Hs|Hs].
  - rewrite (bool_decide_eq_true_2 _ Hs). simpl.
    destruct (evaluateEdgeRules e (s_simulationState st)) eqn:Hp; [|discriminate].
    intros _.
    assert (Ht : target e ∈ reachable fs).
    { apply (inv_reach _ _ _ _ Hinv). right. exists e.
      repeat split; try done. now apply (FlowInv_final _ _ _ _ _ Hinv Hq). }
    rewrite (bool_decide_eq_true_2 _ Ht), !orb_true_r. done.
  - rewrite (bool_decide_eq_false_2 _ Hs). simpl. discriminate.
Qed.

Lemma edgeIsValid_ends_reachable_witness :
  exists result,
    flowEvaluation chainState = Some result
    /\ (edgeIsValid (validEdges result) (mkEdge "e1" "A" "B" []) = true ->
        "A" ∈ reachableNodes result
        /\ "B" ∈ reachableNodes result
        /\ nodeIsReachable true (reachableNodes result) "A" = true
        /\ nodeIsReachable true (reachableNodes result) "B" = true).
Proof.
  apply (edgeIsValid_ends_reachable chainState (mkEdge "e1" "A" "B" [])).
  - reflexivity.
  - compute_done.
  - left.
Defined.

(** ** The flow depends on the nodes through their ids only *)

Lemma rootNodes_ids nodes edges :
  node_id <$> rootNodes nodes edges
    = filter (fun i => i ∉ nodesWithIncoming edges) (node_id <$> nodes).
Proof.
  unfold rootNodes. induction nodes as [|n nodes IH]; [reflexivity|].
  rewrite fmap_cons, !filter_cons.
  destruct (decide (node_id n ∉ nodesWithIncoming edges));
    [rewrite fmap_cons|]; now rewrite IH.
Qed.

Lemma foldl_union_ids (l : list FeatureNode) : forall r : gset string,
  foldl (fun r root => r ∪ {[node_id root]}) r l
    = foldl (fun r i => r ∪ {[i]}) r (node_id <$> l).
Proof.
  induction l as [|n l IH]; intros r; [reflexivity|]. simpl. apply IH.
Qed.

Lemma evaluateFlow_node_ids nodes nodes' edges state :
  node_id <$> nodes = node_id <$> nodes' ->
  evaluateFlow nodes edges state = evaluateFlow nodes' edges state.
Proof.
  intros Hids. unfold evaluateFlow.
  assert (Hlen : length nodes = length nodes').
  { now rewrite <- (length_fmap node_id nodes), Hids, length_fmap. }
  assert (Hinit : initialFlowState nodes edges = initialFlowState nodes' edges).
  { unfold initialFlowState.
    now rewrite !foldl_union_ids, !rootNodes_ids, Hids. }
  now rewrite Hlen, Hinit.
Qed.

Lemma updateNodeData_ids nodeId upd st :
  node_id <$> s_nodes (updateNodeData nodeId upd st) = node_id <$> s_nodes st.
Proof.
  unfold updateNodeData. simpl. rewrite <- list_fmap_compose.
  apply list_fmap_ext. intros i n _. simpl.
  now destruct (String.eqb (node_id n) nodeId).
Qed.

(** X5. Editing the label or description of a node changes no node id and
    no edge, and the flow evaluation of the hook returns the same result as
    before. *)
Theorem updateNodeData_flow_unchanged (nodeId : string) (upd : NodeDataUpdate)
    (st : HookState) :
  node_id <$> s_nodes (updateNodeData nodeId upd st) = node_id <$> s_nodes st
  /\ s_edges (updateNodeData nodeId upd st) = s_edges st
  /\ flowEvaluation (updateNodeData nodeId upd st) = flowEvaluation st.
Proof.
  split; [apply updateNodeData_ids|]. split; [reflexivity|].
  unfold flowEvaluation.
  change (s_isSimulating (updateNodeData nodeId upd st)) with (s_isSimulating st).
  destruct (s_isSimulating st); [|reflexivity]. simpl.
  apply evaluateFlow_node_ids, updateNodeData_ids.
Qed.

(** ** Invariants of the editing operations *)

(** A node id that passes the filter of a deletion is still a node id. *)
Ltac kept_id H :=
  let n := fresh "n" in
  let Heq := fresh "Heq" in
  let Hn := fresh "Hn" in
  apply list_elem_of_fmap in H as (n & Heq & Hn);
  apply list_elem_of_fmap; exists n; split; [exact Heq|];
  apply list_elem_of_filter; split; [congruence | exact Hn].

Lemma NoDup_ids_filter {B} (f : B -> string) (P : B -> Prop)
    `{forall x, Decision (P x)} (l : list B) :
  NoDup (f <$> l) -> NoDup (f <$> filter P l).
Proof.
  intros Hnd. refine (sublist_NoDup _ _ Hnd _).
  apply fmap_sublist, sublist_filter.
Qed.

Lemma mapRulesOf_fields edgeId f eds :
  edge_id <$> mapRulesOf edgeId f eds = edge_id <$> eds
  /\ source <$> mapRulesOf edgeId f eds = source <$> eds
  /\ target <$> mapRulesOf edgeId f eds = target <$> eds
  /\ stripData <$> mapRulesOf edgeId f eds = stripData <$> eds.
Proof.
  unfold mapRulesOf. rewrite <- !list_fmap_compose.
  repeat split; apply list_fmap_ext; intros i e _; simpl;
    now destruct (String.eqb (edge_id e) edgeId).
Qed.

Lemma elem_of_mapRulesOf edgeId f eds e' :
  e' ∈ mapRulesOf edgeId f eds ->
  exists e, e ∈ eds /\ edge_id e' = edge_id e /\ source e' = source e
            /\ target e' = target e.
Proof.
  unfold mapRulesOf. intros He'. apply list_elem_of_fmap in He' as (e & -> & He).
  exists e. split; [done|]. now destruct (String.eqb (edge_id e) edgeId).
Qed.

Lemma WellFormed_mapRulesOf edgeId f st :
  WellFormed st -> WellFormed (setEdges (mapRulesOf edgeId f) st).
Proof.
  intros (Hn & He & Hends). unfold WellFormed. simpl.
  destruct (mapRulesOf_fields edgeId f (s_edges st)) as (Hid & _).
  split; [done|]. split; [now rewrite Hid|].
  intros e' He'. apply elem_of_mapRulesOf in He' as (e & Hin & _ & -> & ->).
  now apply Hends.
Qed.

Lemma WellFormed_perform a st : WellFormed st -> WellFormed (perform a st).
Proof.
  intros Hwf. pose proof Hwf as (Hn & He & Hends).
  destruct a; cbn [perform]; try exact Hwf.
  - (* updateNodeData *)
    unfold WellFormed. rewrite updateNodeData_ids. done.
  - (* deleteNode *)
    unfold deleteNode.
    assert (Hgoal : WellFormed
      (setEdges (filter (fun edge => source edge <> nodeId /\ target edge <> nodeId))
         (setNodes (filter (fun node => node_id node <> nodeId)) st))).
    { unfold WellFormed. simpl. split; [|split].
      - now apply NoDup_ids_filter.
      - now apply NoDup_ids_filter.
      - intros e Hin. apply list_elem_of_filter in Hin as [[Hs Ht] Hin].
        destruct (Hends e Hin) as [Hse Hte].
        split; [kept_id Hse | kept_id Hte]. }
    destruct (isId _ _); exact Hgoal.
  - (* deleteNodes *)
    unfold deleteNodes.
    set (idsSet := (list_to_set nodeIds : gset string)).
    assert (Hgoal : WellFormed
      (setEdges (filter (fun edge => source edge ∉ idsSet /\ target edge ∉ idsSet))
         (setNodes (filter (fun node => node_id node ∉ idsSet)) st))).
    { unfold WellFormed. simpl. split; [|split].
      - now apply NoDup_ids_filter.
      - now apply NoDup_ids_filter.
      - intros e Hin. apply list_elem_of_filter in Hin as [[Hs Ht] Hin].
        destruct (Hends e Hin) as [Hse Hte].
        split; [kept_id Hse | kept_id Hte]. }
    destruct (s_selectedNodeId st); [|exact Hgoal].
    destruct (_ && _); exact Hgoal.
  - (* deleteEdge *)
    unfold deleteEdge.
    assert (Hgoal : WellFormed
      (setEdges (filter (fun edge => edge_id edge <> edgeId)) st)).
    { unfold WellFormed. simpl. split; [done|]. split.
      - now apply NoDup_ids_filter.
      - intros e Hin. apply list_elem_of_filter in Hin as [_ Hin]. now apply Hends. }
    destruct (isId _ _); exact Hgoal.
  - (* selectEdge *)
    unfold selectEdge. destruct (falsy edgeId); exact Hwf.
  - apply WellFormed_mapRulesOf, Hwf.
  - apply WellFormed_mapRulesOf, Hwf.
  - apply WellFormed_mapRulesOf, Hwf.
  - (* toggleTraceMode *)
    unfold toggleTraceMode. destruct (s_isTraceMode st); exact Hwf.
  - (* clearGraph *)
    unfold WellFormed. simpl. split; [constructor|]. split; [constructor|].
    intros x Hx. inversion Hx.
Qed.

Lemma isId_true selected i : isId selected i = true <-> selected = Some i.
Proof.
  destruct selected as [s|]; simpl; [|split; discriminate].
  rewrite String.eqb_eq. split; congruence.
Qed.

Lemma SelectionValid_perform a st :
  SelectionValid st -> SelectionValid (perform a st).
Proof.
  intros Hsel.
  destruct a; cbn [perform]; try exact Hsel.
  - (* updateNodeData *)
    intros i Hi Hne. rewrite updateNodeData_ids. now apply Hsel.
  - (* deleteNode *)
    unfold deleteNode. destruct (isId (s_selectedNodeId st) nodeId) eqn:Hid.
    + intros i Hi. discriminate Hi.
    + intros i Hi Hne. simpl in Hi. simpl.
      pose proof (Hsel i Hi Hne) as Hin.
      assert (Hni : i <> nodeId).
      { intros ->. apply not_true_iff_false in Hid. now apply Hid, isId_true. }
      kept_id Hin.
  - (* deleteNodes *)
    unfold deleteNodes. destruct (s_selectedNodeId st) as [selected|] eqn:Hsome.
    + destruct (negb (falsy (Some selected))
                && bool_decide (selected ∈ (list_to_set nodeIds : gset string)))
        eqn:Hclear.
      * intros i Hi. discriminate Hi.
      * intros i Hi Hne. simpl in Hi. rewrite Hsome in Hi. injection Hi as ->.
        simpl. pose proof (Hsel i Hsome Hne) as Hin.
        apply andb_false_iff in Hclear as [Hf|Hset].
        -- simpl in Hf. apply negb_false_iff, String.eqb_eq in Hf. done.
        -- apply bool_decide_eq_false in Hset.
           apply list_elem_of_fmap in Hin as (n & Heq & Hn).
           apply list_elem_of_fmap. exists n. split; [exact Heq|].
           apply list_elem_of_filter. split; [now rewrite <- Heq | exact Hn].
    + intros i Hi. simpl in Hi. congruence.
  - (* deleteEdge *)
    unfold deleteEdge. destruct (isId _ _); exact Hsel.
  - (* selectEdge *)
    unfold selectEdge. destruct (falsy edgeId); [exact Hsel|].
    intros i Hi. discriminate Hi.
  - (* toggleTraceMode *)
    unfold toggleTraceMode. destruct (s_isTraceMode st); exact Hsel.
  - (* clearGraph *)
    intros i Hi. discriminate Hi.
Qed.

(** X6. Deleting nodes or edges, editing node data or rules, changing the
    simulation values, selecting an edge and clearing the graph keep the graph
    well formed (unique node ids, unique edge ids, no edge with a missing end
    point) and keep the selected node among the nodes, over any sequence of
    such operations. *)
Theorem perform_keeps_invariants (actions : list Action) (st : HookState) :
  WellFormed st -> SelectionValid st ->
  WellFormed (foldl (fun s a => perform a s) st actions)
  /\ SelectionValid (foldl (fun s a => perform a s) st actions).
Proof.
  revert st. induction actions as [|a actions IH]; intros st Hwf Hsel; [done|].
  simpl. apply IH; [now apply WellFormed_perform | now apply SelectionValid_perform].
Qed.

Lemma chainState_WellFormed : WellFormed chainState.
Proof.
  split; [compute_done|]. split; [compute_done|].
  intros e He. simpl in He.
  repeat (apply elem_of_cons in He as [->|He]; [split; compute_done|]).
  inversion He.
Qed.

Lemma chainState_SelectionValid : SelectionValid chainState.
Proof. intros i [= <-] _. compute_done. Qed.

Lemma perform_keeps_invariants_witness :
  WellFormed (foldl (fun s a => perform a s) chainState
                [ActDeleteNode "B"; ActRemoveRule "e2" "r1"; ActDeleteEdge "e3"])
  /\ SelectionValid (foldl (fun s a => perform a s) chainState
                [ActDeleteNode "B"; ActRemoveRule "e2" "r1"; ActDeleteEdge "e3"]).
Proof.
  apply perform_keeps_invariants.
  - exact chainState_WellFormed.
  - exact chainState_SelectionValid.
Defined.

(** What [deleteNode] leaves: the other nodes and the edges between them, in
    order, and no selection of the deleted node. *)
Lemma deleteNode_removes (nodeId : string) (st : HookState) :
  let st' := deleteNode nodeId st in
  nodeId ∉ (node_id <$> s_nodes st')
  /\ (forall e, e ∈ s_edges st' -> source e <> nodeId /\ target e <> nodeId)
  /\ s_nodes st' = filter (fun n => node_id n <> nodeId) (s_nodes st)
  /\ (forall e, e ∈ s_edges st' <->
                e ∈ s_edges st /\ source e <> nodeId /\ target e <> nodeId)
  /\ s_selectedNodeId st' <> Some nodeId.
Proof.
  cbn zeta. unfold deleteNode.
  assert (Hfields : forall s v,
    s_nodes (setSelectedNodeId v s) = s_nodes s
    /\ s_edges (setSelectedNodeId v s) = s_edges s) by done.
  destruct (isId (s_selectedNodeId st) nodeId) eqn:Hid; simpl.
  - split; [|split; [|split; [|split]]]; try done.
    + intros Hin. apply list_elem_of_fmap in Hin as (n & -> & Hn).
      now apply list_elem_of_filter in Hn as [Hne _].
    + intros e He. now apply list_elem_of_filter in He as [Hne _].
    + intros e. rewrite list_elem_of_filter. tauto.
  - split; [|split; [|split; [|split]]]; try done.
    + intros Hin. apply list_elem_of_fmap in Hin as (n & -> & Hn).
      now apply list_elem_of_filter in Hn as [Hne _].
    + intros e He. now apply list_elem_of_filter in He as [Hne _].
    + intros e. rewrite list_elem_of_filter. tauto.
    + intros Hs. apply isId_true in Hs. congruence.
Qed.

(** Every reachable id is the id of a node or the target of an edge. *)
Lemma reachableNodes_known nodes edges state result n :
  evaluateFlow nodes edges state = Some result ->
  n ∈ reachableNodes result ->
  n ∈ (node_id <$> nodes) \/ n ∈ (target <$> edges).
Proof.
  intros Hev Hn.
  apply (reachableNodes_paths _ _ _ _ Hev) in Hn as (r & Hr & Hrn).
  apply rtc_inv_r in Hrn as [<-|(a & _ & (e & He & _ & <- & _))].
  - left. unfold rootIds in Hr. apply elem_of_list_to_set in Hr.
    apply list_elem_of_fmap in Hr as (x & -> & Hx).
    apply elem_of_rootNodes in Hx as [Hx _]. now apply list_elem_of_fmap_2.
  - right. now apply list_elem_of_fmap_2.
Qed.

(** X7. After [deleteNode] the deleted id is the id of no node and the end of
    no edge, and no simulation context makes it reachable again. *)
Theorem deleteNode_not_reachable (nodeId : string) (st : HookState)
    (state : SimulationState) :
  let st' := deleteNode nodeId st in
  nodeId ∉ (node_id <$> s_nodes st')
  /\ (forall e, e ∈ s_edges st' -> source e <> nodeId /\ target e <> nodeId)
  /\ exists result,
       evaluateFlow (s_nodes st') (s_edges st') state = Some result
       /\ nodeId ∉ reachableNodes result.
Proof.
  destruct (deleteNode_removes nodeId st) as (Hnode & Hedge & _).
  cbn zeta in *. split; [exact Hnode|]. split; [exact Hedge|].
  destruct (evaluateFlow_result (s_nodes (deleteNode nodeId st))
              (s_edges (deleteNode nodeId st)) state) as (fs & Hev & _).
  eexists. split; [exact Hev|]. intros Hn.
  destruct (reachableNodes_known _ _ _ _ _ Hev Hn) as [H|H]; [done|].
  apply list_elem_of_fmap in H as (e & Ht & He).
  destruct (Hedge e He) as [_ Hne]. congruence.
Qed.

(** ** Deleting several nodes *)

Lemma filter_ids_cons {B} (f : B -> string) (i : string) (ids : list string)
    (l : list B) :
  filter (fun x => f x ∉ (list_to_set (i :: ids) : gset string)) l
    = filter (fun x => f x ∉ (list_to_set ids : gset string))
        (filter (fun x => f x <> i) l).
Proof.
  induction l as [|x l IH]; [reflexivity|].
  rewrite !filter_cons.
  destruct (decide (f x = i)) as [Hx|Hx].
  - rewrite decide_False by set_solver. rewrite decide_False by tauto. exact IH.
  - rewrite (decide_True (P := f x <> i)) by done. rewrite filter_cons.
    destruct (decide (f x ∉ (list_to_set ids : gset string))) as [Hs|Hs].
    + rewrite decide_True by set_solver. now rewrite IH.
    + rewrite decide_False by set_solver. exact IH.
Qed.

Lemma filter_ends_cons (i : string) (ids : list string) (l : list FeatureEdge) :
  filter (fun e => source e ∉ (list_to_set (i :: ids) : gset string)
                   /\ target e ∉ (list_to_set (i :: ids) : gset string)) l
    = filter (fun e => source e ∉ (list_to_set ids : gset string)
                       /\ target e ∉ (list_to_set ids : gset string))
        (filter (fun e => source e <> i /\ target e <> i) l).
Proof.
  induction l as [|x l IH]; [reflexivity|].
  rewrite !filter_cons.
  destruct (decide (source x <> i /\ target x <> i)) as [Hx|Hx].
  - rewrite filter_cons.
    destruct (decide (source x ∉ (list_to_set ids : gset string)
                      /\ target x ∉ (list_to_set ids : gset string))) as [Hs|Hs].
    + rewrite decide_True by set_solver. now rewrite IH.
    + rewrite decide_False; [exact IH|]. intros [H1 H2]. apply Hs. set_solver.
  - rewrite decide_False; [exact IH|]. intros [H1 H2]. apply Hx. set_solver.
Qed.

Lemma filter_all {B} (P : B -> Prop) `{forall x, Decision (P x)} (l : list B) :
  (forall x, P x) -> filter P l = l.
Proof.
  intros HP. induction l as [|x l IH]; [reflexivity|].
  rewrite filter_cons, decide_True by apply HP. now rewrite IH.
Qed.

Lemma deleteNodes_graph nodeIds : forall st,
  s_nodes (deleteNodes nodeIds st)
    = s_nodes (foldl (fun s i => deleteNode i s) st nodeIds)
  /\ s_edges (deleteNodes nodeIds st)
     = s_edges (foldl (fun s i => deleteNode i s) st nodeIds).
Proof.
  assert (Hgraph : forall ids st,
    s_nodes (deleteNodes ids st)
      = filter (fun n => node_id n ∉ (list_to_set ids : gset string)) (s_nodes st)
    /\ s_edges (deleteNodes ids st)
       = filter (fun e => source e ∉ (list_to_set ids : gset string)
                          /\ target e ∉ (list_to_set ids : gset string))
                (s_edges st)).
  { intros ids st. unfold deleteNodes.
    destruct (s_selectedNodeId st); [destruct (_ && _)|]; done. }
  assert (Hone : forall i st,
    s_nodes (deleteNode i st) = filter (fun n => node_id n <> i) (s_nodes st)
    /\ s_edges (deleteNode i st)
       = filter (fun e => source e <> i /\ target e <> i) (s_edges st)).
  { intros i st. unfold deleteNode. destruct (isId _ _); done. }
  induction nodeIds as [|i ids IH]; intros st.
  - destruct (Hgraph [] st) as [-> ->]. simpl.
    split; apply filter_all; set_solver.
  - simpl. destruct (IH (deleteNode i st)) as [<- <-].
    destruct (Hgraph (i :: ids) st) as [-> ->].
    destruct (Hgraph ids (deleteNode i st)) as [-> ->].
    destruct (Hone i st) as [-> ->].
    split; [apply filter_ids_cons | apply filter_ends_cons].
Qed.

(** X8. [deleteNodes] leaves the nodes and edges that deleting the ids one
    by one with [deleteNode] leaves, and a selected node that is among the ids
    is deselected either way, provided its id is not the empty string (which
    the batch operation takes for "nothing selected"). *)
Theorem deleteNodes_as_sequence (nodeIds : list string) (st : HookState) :
  let batch := deleteNodes nodeIds st in
  let single := foldl (fun s i => deleteNode i s) st nodeIds in
  s_nodes batch = s_nodes single
  /\ s_edges batch = s_edges single
  /\ (s_selectedNodeId st <> Some "" ->
      s_selectedNodeId batch = s_selectedNodeId single).
Proof.
  cbn zeta. destruct (deleteNodes_graph nodeIds st) as [Hn He].
  split; [exact Hn|]. split; [exact He|]. clear Hn He.
  assert (Hbatch : forall ids s,
    s_selectedNodeId s <> Some "" ->
    s_selectedNodeId (deleteNodes ids s)
      = match s_selectedNodeId s with
        | Some sel => if bool_decide (sel ∈ ids) then None else Some sel
        | None => None
        end).
  { intros ids s Hne. unfold deleteNodes.
    destruct (s_selectedNodeId s) as [sel|] eqn:E; [|simpl; exact E].
    assert (Hf : falsy (Some sel) = false).
    { simpl. apply String.eqb_neq. congruence. }
    rewrite Hf. simpl.
    destruct (decide (sel ∈ ids)) as [Hin|Hin].
    - rewrite !bool_decide_eq_true_2 by set_solver. reflexivity.
    - rewrite !bool_decide_eq_false_2 by set_solver. simpl. exact E. }
  intros Hne. rewrite (Hbatch _ _ Hne). clear Hbatch.
  revert st Hne. induction nodeIds as [|i ids IH]; intros st Hne.
  - simpl. now destruct (s_selectedNodeId st).
  - simpl.
    assert (Hone : s_selectedNodeId (deleteNode i st)
                   = if isId (s_selectedNodeId st) i then None
                     else s_selectedNodeId st).
    { unfold deleteNode. now destruct (isId _ _). }
    rewrite <- IH; rewrite Hone.
    + destruct (s_selectedNodeId st) as [sel|] eqn:E; simpl; [|reflexivity].
      destruct (String.eqb_spec sel i) as [->|Hsi].
      * rewrite bool_decide_eq_true_2 by left. reflexivity.
      * apply f_equal with (f := fun b : bool => if b then None else Some sel).
        apply bool_decide_ext. rewrite elem_of_cons. tauto.
    + destruct (isId (s_selectedNodeId st) i); [discriminate | exact Hne].
Qed.


(** ** Adding a node *)

Lemma reachableNodes_fixpoint nodes edges state result :
  evaluateFlow nodes edges state = Some result ->
  forall n, n ∈ reachableNodes result
            <-> n ∈ rootIds nodes edges
                \/ exists e, e ∈ edges /\ source e ∈ reachableNodes result
                             /\ evaluateEdgeRules e state = true /\ target e = n.
Proof.
  intros Hev n.
  destruct (evaluateFlow_result nodes edges state) as (fs & Hev' & Hinv & Hq & _).
  rewrite Hev' in Hev. injection Hev as <-. simpl.
  rewrite (inv_reach _ _ _ _ Hinv). split.
  - intros [H|(e & He & Hs & Hp & Ht)]; [now left|]. right. exists e.
    repeat split; try done. now apply (FlowInv_final _ _ _ _ _ Hinv Hq).
  - intros [H|(e & He & Hs & Hp & Ht)]; [now left|]. right. exists e.
    repeat split; try done. now apply (FlowInv_final _ _ _ _ _ Hinv Hq).
Qed.

(** C2. [evaluateFlow] treats exactly the input nodes that no edge targets
    as roots: each of them is reachable in every context; every reachable id
    is the id of such a node or the target of a passing edge that leaves a
    reachable node; and the reachable set is the least set that holds the ids
    of the untargeted nodes and is closed under passing edges, so nothing
    else is seeded.  With nodes A, B and no edges the result is [{A, B}] with
    an empty validity map; a targeted node behind a failing rule is not
    reachable. *)
Theorem evaluateFlow_roots (nodes : list FeatureNode)
    (edges : list FeatureEdge) (state : SimulationState) :
  (forall n, n ∈ rootNodes nodes edges
             <-> n ∈ nodes /\ ~ exists e, e ∈ edges /\ target e = node_id n)
  /\ (exists result,
        evaluateFlow nodes edges state = Some result
        /\ (forall n, n ∈ nodes ->
               (~ exists e, e ∈ edges /\ target e = node_id n) ->
               node_id n ∈ reachableNodes result)
        /\ (forall i, i ∈ reachableNodes result ->
               (exists n, n ∈ nodes /\ node_id n = i
                          /\ ~ exists e, e ∈ edges /\ target e = i)
               \/ (exists e, e ∈ edges /\ source e ∈ reachableNodes result
                             /\ evaluateEdgeRules e state = true
                             /\ target e = i))
        /\ (forall ids : gset string,
               (forall n, n ∈ nodes ->
                  (~ exists e, e ∈ edges /\ target e = node_id n) ->
                  node_id n ∈ ids) ->
               (forall e, e ∈ edges -> source e ∈ ids ->
                  evaluateEdgeRules e state = true -> target e ∈ ids) ->
               reachableNodes result ⊆ ids))
  /\ evaluateFlow [mkNode "A"; mkNode "B"] [] state
       = Some {| reachableNodes := {[ "A"; "B" ]}; validEdges := ∅ |}
  /\ evaluateFlow gateNodes gateEdges guestState
       = Some {| reachableNodes := {[ "A" ]};
                 validEdges := {[ "e1" := false ]} |}.
Proof.
  assert (Hroot : forall i, i ∈ rootIds nodes edges
            <-> exists n, n ∈ nodes /\ node_id n = i
                          /\ ~ exists e, e ∈ edges /\ target e = i).
  { intros i. unfold rootIds.
    rewrite elem_of_list_to_set, list_elem_of_fmap. split.
    - intros (n & -> & Hn). apply elem_of_rootNodes in Hn as [Hn Hno]. eauto.
    - intros (n & Hn & <- & Hno). exists n. split; [done|].
      now apply elem_of_rootNodes. }
  split; [apply elem_of_rootNodes|]. split; [|split; vm_compute; reflexivity].
  destruct (evaluateFlow_paths nodes edges state) as (st & Hev & Hinv & Hq & _).
  eexists. split; [exact Hev|]. split; [|split].
  - intros n Hn Hno.
    apply (reachableNodes_fixpoint _ _ _ _ Hev). left. apply Hroot. eauto.
  - intros i Hi.
    apply (reachableNodes_fixpoint _ _ _ _ Hev) in Hi as [Hi|Hi]; [left|now right].
    now apply Hroot.
  - intros ids Hseed Hclosed i Hi.
    apply (reachableNodes_paths _ _ _ _ Hev) in Hi as (r & Hr & Hri).
    revert i Hri. apply (rtc_ind_r (fun i => i ∈ ids) r).
    + apply Hroot in Hr as (n & Hn & <- & Hno). now apply Hseed.
    + intros a b _ (e & He & <- & <- & Hp) IH. now apply Hclosed.
Qed.

Lemma elem_of_rootIds nodes edges n :
  n ∈ rootIds nodes edges
  <-> n ∈ (node_id <$> nodes) /\ n ∉ (target <$> edges).
Proof.
  unfold rootIds. rewrite elem_of_list_to_set, rootNodes_ids, list_elem_of_filter.
  unfold nodesWithIncoming. rewrite elem_of_list_to_set. tauto.
Qed.

(** X9. [addNode] without a parent id, or with the empty string as parent
    id, adds no edge; when no edge of the graph targets the new id, the new
    node is a root and is reachable in every simulation context. *)
Theorem addNode_root_reachable (newNodeId nodeLabel : string)
    (parentId : option string) (st : HookState) (state : SimulationState) :
  falsy parentId = true ->
  (forall e, e ∈ s_edges st -> target e <> newNodeId) ->
  let st' := addNode newNodeId nodeLabel parentId st in
  s_edges st' = s_edges st
  /\ exists result,
       evaluateFlow (s_nodes st') (s_edges st') state = Some result
       /\ newNodeId ∈ reachableNodes result.
Proof.
  intros Hfalsy Hfresh. cbn zeta.
  assert (Hst : addNode newNodeId nodeLabel parentId st
                = setNodes (fun nds => nds ++ [{| node_id := newNodeId;
                                                  label := nodeLabel;
                                                  description := None |}]) st).
  { unfold addNode. destruct parentId as [p|]; [|reflexivity]. now rewrite Hfalsy. }
  rewrite Hst. split; [reflexivity|]. simpl.
  match goal with |- context [evaluateFlow ?ns ?es _] =>
    destruct (evaluateFlow_result ns es state) as (fs & Hev & _) end.
  eexists. split; [exact Hev|].
  apply (reachableNodes_fixpoint _ _ _ _ Hev). left.
  apply elem_of_rootIds. split.
  - rewrite fmap_app. apply elem_of_app. right. left.
  - intros Hin. apply list_elem_of_fmap in Hin as (e & Ht & He).
    now apply (Hfresh e He).
Qed.

Lemma addNode_root_reachable_witness :
  exists result,
    evaluateFlow (s_nodes (addNode "N" "New Feature" (Some "") chainState))
                 (s_edges (addNode "N" "New Feature" (Some "") chainState))
                 guestState = Some result
    /\ "N" ∈ reachableNodes result.
Proof.
  apply (addNode_root_reachable "N" "New Feature" (Some "") chainState guestState).
  - reflexivity.
  - intros e He. simpl in He.
    repeat (apply elem_of_cons in He as [->|He]; [discriminate|]).
    inversion He.
Defined.

(** X10. [addNode] with a parent id adds one edge without rules from the
    parent to the new node; when no other edge targets the new id, the new
    node is reachable exactly when the parent is, in every simulation
    context. *)
Theorem addNode_child_reachable (newNodeId nodeLabel parent : string)
    (st : HookState) (state : SimulationState) :
  parent <> "" ->
  (forall e, e ∈ s_edges st -> target e <> newNodeId) ->
  let st' := addNode newNodeId nodeLabel (Some parent) st in
  s_edges st'
    = s_edges st ++ [mkEdge ("e-" +:+ parent +:+ "-" +:+ newNodeId)
                            parent newNodeId []]
  /\ exists result,
       evaluateFlow (s_nodes st') (s_edges st') state = Some result
       /\ (newNodeId ∈ reachableNodes result <-> parent ∈ reachableNodes result).
Proof.
  intros Hparent Hfresh. cbn zeta.
  assert (Hf : falsy (Some parent) = false).
  { simpl. now apply String.eqb_neq. }
  unfold addNode. rewrite Hf. split; [reflexivity|]. simpl.
  match goal with |- context [evaluateFlow ?ns ?es _] =>
    destruct (evaluateFlow_result ns es state) as (fs & Hev & _) end.
  eexists. split; [exact Hev|].
  rewrite (reachableNodes_fixpoint _ _ _ _ Hev newNodeId). simpl. split.
  - intros [Hroot|(e & He & Hs & _ & Ht)].
    + apply elem_of_rootIds in Hroot as [_ Hnot]. exfalso. apply Hnot.
      rewrite fmap_app. apply elem_of_app. right. left.
    + apply elem_of_app in He as [He|He]; [now apply Hfresh in He|].
      apply list_elem_of_singleton in He as ->. exact Hs.
  - intros Hp. right. eexists. split; [apply elem_of_app; right; left|].
    simpl. done.
Qed.

Lemma addNode_child_reachable_witness :
  exists result,
    evaluateFlow (s_nodes (addNode "N" "New Feature" (Some "D") chainState))
                 (s_edges (addNode "N" "New Feature" (Some "D") chainState))
                 adminState = Some result
    /\ ("N" ∈ reachableNodes result <-> "D" ∈ reachableNodes result).
Proof.
  apply (addNode_child_reachable "N" "New Feature" "D" chainState adminState).
  - discriminate.
  - intros e He. simpl in He.
    repeat (apply elem_of_cons in He as [->|He]; [discriminate|]).
    inversion He.
Defined.

(** X11. [addNode] keeps the graph well formed when the new id is not yet a
    node id and, if a parent is given, the parent is a node and the id built
    for the new edge is not yet an edge id. *)
Theorem addNode_WellFormed (newNodeId nodeLabel : string)
    (parentId : option string) (st : HookState) :
  WellFormed st ->
  newNodeId ∉ (node_id <$> s_nodes st) ->
  (forall parent, parentId = Some parent -> parent <> "" ->
     parent ∈ (node_id <$> s_nodes st)
     /\ ("e-" +:+ parent +:+ "-" +:+ newNodeId) ∉ (edge_id <$> s_edges st)) ->
  WellFormed (addNode newNodeId nodeLabel parentId st).
Proof.
  intros (Hn & He & Hends) Hfresh Hparent.
  assert (Hnodes : NoDup (node_id <$> (s_nodes st ++
            [{| node_id := newNodeId; label := nodeLabel; description := None |}]))).
  { rewrite fmap_app. apply NoDup_app. split; [exact Hn|]. split.
    - intros i Hi Hin. apply list_elem_of_singleton in Hin. simpl in Hin. congruence.
    - apply NoDup_singleton. }
  assert (Hold : forall e, e ∈ s_edges st ->
    source e ∈ (node_id <$> (s_nodes st ++
            [{| node_id := newNodeId; label := nodeLabel; description := None |}]))
    /\ target e ∈ (node_id <$> (s_nodes st ++
            [{| node_id := newNodeId; label := nodeLabel; description := None |}]))).
  { intros e Hin. destruct (Hends e Hin) as [Hs Ht].
    rewrite fmap_app. split; apply elem_of_app; now left. }
  unfold addNode. destruct parentId as [parent|]; [|now split].
  destruct (falsy (Some parent)) eqn:Hf; [now split|].
  destruct (Hparent parent eq_refl) as [Hp Hid].
  { simpl in Hf. now apply String.eqb_neq. }
  unfold WellFormed. simpl. split; [exact Hnodes|]. split.
  - rewrite fmap_app. apply NoDup_app. split; [exact He|]. split.
    + intros i Hi Hin. apply list_elem_of_singleton in Hin. simpl in Hin. congruence.
    + apply NoDup_singleton.
  - intros e Hin. apply elem_of_app in Hin as [Hin|Hin]; [now apply Hold|].
    apply list_elem_of_singleton in Hin as ->. simpl.
    rewrite fmap_app. split; apply elem_of_app; [now left | right; left].
Qed.

Lemma addNode_WellFormed_witness :
  WellFormed (addNode "N" "New Feature" (Some "D") chainState).
Proof.
  apply addNode_WellFormed.
  - exact chainState_WellFormed.
  - compute_done.
  - intros parent [= <-] _. split; compute_done.
Defined.

(** ** Editing the rules of an edge *)

Lemma reachableNodes_mono nodes edges1 edges2 state r1 r2 :
  target <$> edges1 = target <$> edges2 ->
  (forall a b, passStep state edges1 a b -> passStep state edges2 a b) ->
  evaluateFlow nodes edges1 state = Some r1 ->
  evaluateFlow nodes edges2 state = Some r2 ->
  reachableNodes r1 ⊆ reachableNodes r2.
Proof.
  intros Htargets Hsteps Hev1 Hev2 n Hn.
  apply (reachableNodes_paths _ _ _ _ Hev1) in Hn as (r & Hr & Hrn).
  apply (reachableNodes_paths _ _ _ _ Hev2). exists r. split.
  - apply elem_of_rootIds in Hr. apply elem_of_rootIds. now rewrite <- Htargets.
  - eapply rtc_subrel; [|exact Hrn]. exact Hsteps.
Qed.

Lemma evaluateEdgeRules_setRules edge rs state :
  evaluateEdgeRules (setRules edge rs) state
    = forallb (fun rule => evaluateRule rule state) rs.
Proof. apply evaluateEdgeRules_forallb. Qed.

Lemma passStep_mapRulesOf_1 edgeId f eds state a b :
  (forall e, evaluateEdgeRules (setRules e (f (edgeRules e))) state = true ->
             evaluateEdgeRules e state = true) ->
  passStep state (mapRulesOf edgeId f eds) a b -> passStep state eds a b.
Proof.
  intros Hf (e' & He' & Hs & Ht & Hp). unfold mapRulesOf in He'.
  apply list_elem_of_fmap in He' as (e & -> & He). exists e.
  destruct (String.eqb (edge_id e) edgeId); [|done].
  simpl in Hs, Ht. repeat split; try done. now apply Hf.
Qed.

Lemma passStep_mapRulesOf_2 edgeId f eds state a b :
  (forall e, evaluateEdgeRules e state = true ->
             evaluateEdgeRules (setRules e (f (edgeRules e))) state = true) ->
  passStep state eds a b -> passStep state (mapRulesOf edgeId f eds) a b.
Proof.
  intros Hf (e & He & Hs & Ht & Hp).
  exists (if String.eqb (edge_id e) edgeId
          then setRules e (f (edgeRules e)) else e).
  split.
  { unfold mapRulesOf. apply list_elem_of_fmap. exists e. done. }
  destruct (String.eqb (edge_id e) edgeId); [|done].
  simpl. repeat split; try done. now apply Hf.
Qed.

(** X12. [addRuleToEdge] appends the rule to the rule list of the edge, so
    the edge passes afterwards exactly when it passed before and the new rule
    passes too; in every simulation context the nodes reachable afterwards
    were reachable before. *)
Theorem addRuleToEdge_restricts (newRuleId edgeId c : string)
    (op : RuleOperator) (v : RuleValue) (st : HookState)
    (state : SimulationState) :
  let rule := {| rule_id := newRuleId; condition := c; operator := op;
                 value := v |} in
  let st' := addRuleToEdge newRuleId edgeId c op v st in
  s_edges st'
    = (fun e => if String.eqb (edge_id e) edgeId
                then setRules e (edgeRules e ++ [rule]) else e) <$> s_edges st
  /\ (forall e, evaluateEdgeRules (setRules e (edgeRules e ++ [rule])) state
                = evaluateEdgeRules e state && evaluateRule rule state)
  /\ exists before after,
       evaluateFlow (s_nodes st) (s_edges st) state = Some before
       /\ evaluateFlow (s_nodes st') (s_edges st') state = Some after
       /\ reachableNodes after ⊆ reachableNodes before.
Proof.
  cbn zeta.
  assert (Heq : forall e,
    evaluateEdgeRules
      (setRules e (edgeRules e ++ [{| rule_id := newRuleId; condition := c;
                                      operator := op; value := v |}])) state
    = evaluateEdgeRules e state
      && evaluateRule {| rule_id := newRuleId; condition := c;
                         operator := op; value := v |} state).
  { intros e. rewrite evaluateEdgeRules_setRules, forallb_app, evaluateEdgeRules_forallb.
    simpl. now rewrite andb_true_r. }
  split; [reflexivity|]. split; [exact Heq|].
  destruct (evaluateFlow_result (s_nodes st) (s_edges st) state) as (f1 & Hev1 & _).
  destruct (evaluateFlow_result (s_nodes (addRuleToEdge newRuleId edgeId c op v st))
              (s_edges (addRuleToEdge newRuleId edgeId c op v st)) state)
    as (f2 & Hev2 & _).
  eexists. eexists. split; [exact Hev1|]. split; [exact Hev2|].
  eapply reachableNodes_mono; [| |exact Hev2|exact Hev1].
  - apply mapRulesOf_fields.
  - intros a b. apply passStep_mapRulesOf_1. intros e He.
    rewrite Heq in He. now apply andb_true_iff in He as [He _].
Qed.

Lemma forallb_filter_true {B} (p : B -> bool) (P : B -> Prop)
    `{forall x, Decision (P x)} (l : list B) :
  forallb p l = true -> forallb p (filter P l) = true.
Proof.
  rewrite !forallb_forall. intros Hall x Hx. apply Hall.
  apply list_elem_of_In in Hx. apply list_elem_of_filter in Hx as [_ Hx].
  now apply list_elem_of_In.
Qed.

(** X13. [removeRule] leaves no rule with the given id on the edges that
    carry the edge id, and an edge that passed before still passes; in every
    simulation context the nodes reachable before are reachable afterwards. *)
Theorem removeRule_relaxes (edgeId ruleId : string) (st : HookState)
    (state : SimulationState) :
  let st' := removeRule edgeId ruleId st in
  (forall e r, e ∈ s_edges st' -> edge_id e = edgeId -> r ∈ edgeRules e ->
               rule_id r <> ruleId)
  /\ exists before after,
       evaluateFlow (s_nodes st) (s_edges st) state = Some before
       /\ evaluateFlow (s_nodes st') (s_edges st') state = Some after
       /\ reachableNodes before ⊆ reachableNodes after.
Proof.
  cbn zeta. split.
  - intros e' r He' Hid Hr. unfold removeRule, mapRulesOf in He'. simpl in He'.
    apply list_elem_of_fmap in He' as (e & -> & He).
    destruct (String.eqb_spec (edge_id e) edgeId) as [Heq|Hne]; [|done].
    change (edgeRules (setRules e (filter (fun rule => rule_id rule <> ruleId)
                                          (edgeRules e))))
      with (filter (fun rule => rule_id rule <> ruleId) (edgeRules e)) in Hr.
    now apply list_elem_of_filter in Hr as [Hr _].
  - destruct (evaluateFlow_result (s_nodes st) (s_edges st) state) as (f1 & Hev1 & _).
    destruct (evaluateFlow_result (s_nodes (removeRule edgeId ruleId st))
                (s_edges (removeRule edgeId ruleId st)) state) as (f2 & Hev2 & _).
    eexists. eexists. split; [exact Hev1|]. split; [exact Hev2|].
    eapply reachableNodes_mono; [| |exact Hev1|exact Hev2].
    + symmetry. apply mapRulesOf_fields.
    + intros a b. apply passStep_mapRulesOf_2. intros e He.
      rewrite evaluateEdgeRules_setRules. apply forallb_filter_true.
      now rewrite <- evaluateEdgeRules_forallb.
Qed.

(** X14. Adding, updating or removing a rule changes the id and the end
    points of no edge, and the ancestor trace of every node is what it was
    before. *)
Theorem rule_edits_keep_trace (newRuleId edgeId ruleId c : string)
    (op : RuleOperator) (v : RuleValue) (updates : RuleUpdate)
    (focus : string) (st : HookState) :
  let unchanged st' :=
    stripData <$> s_edges st' = stripData <$> s_edges st
    /\ traceAncestors focus (s_edges st') = traceAncestors focus (s_edges st)
    /\ traceHighlight (s_isTraceMode st') (s_hoveredNodeId st') (s_edges st')
       = traceHighlight (s_isTraceMode st) (s_hoveredNodeId st) (s_edges st) in
  unchanged (addRuleToEdge newRuleId edgeId c op v st)
  /\ unchanged (updateRule edgeId ruleId updates st)
  /\ unchanged (removeRule edgeId ruleId st).
Proof.
  assert (Hgen : forall f,
    stripData <$> mapRulesOf edgeId f (s_edges st) = stripData <$> s_edges st
    /\ traceAncestors focus (mapRulesOf edgeId f (s_edges st))
       = traceAncestors focus (s_edges st)
    /\ traceHighlight (s_isTraceMode st) (s_hoveredNodeId st)
         (mapRulesOf edgeId f (s_edges st))
       = traceHighlight (s_isTraceMode st) (s_hoveredNodeId st) (s_edges st)).
  { intros f. destruct (mapRulesOf_fields edgeId f (s_edges st)) as (_ & _ & _ & Hs).
    assert (Htrace : forall n,
      traceAncestors n (mapRulesOf edgeId f (s_edges st))
      = traceAncestors n (s_edges st)).
    { intros n. rewrite <- (traceAncestors_stripData n (mapRulesOf _ _ _)), Hs.
      apply traceAncestors_stripData. }
    split; [exact Hs|]. split; [apply Htrace|].
    unfold traceHighlight. destruct (_ || _); [reflexivity|].
    destruct (s_hoveredNodeId st); [apply Htrace | reflexivity]. }
  cbn zeta. repeat split; apply Hgen.
Qed.

(** ** The simulation context *)

Lemma evaluateRule_other_key rule c (f : SimulationState -> SimulationState)
    (state : SimulationState) :
  (forall k, k <> c -> f state !! k = state !! k) ->
  condition rule <> c ->
  evaluateRule rule (f state) = evaluateRule rule state.
Proof.
  intros Hf Hne. unfold evaluateRule, getProperty. now rewrite Hf.
Qed.

Lemma processEdges_state_ext s1 s2 es : forall st,
  (forall e, e ∈ es -> evaluateEdgeRules e s1 = evaluateEdgeRules e s2) ->
  foldl (processEdge s1) st es = foldl (processEdge s2) st es.
Proof.
  induction es as [|e es IH]; intros st Hext; [reflexivity|].
  simpl. unfold processEdge at 2 4. rewrite (Hext e) by left.
  apply IH. intros e' He'. apply Hext. now right.
Qed.

Lemma evaluateFlow_state_ext nodes edges s1 s2 :
  (forall e, e ∈ edges -> evaluateEdgeRules e s1 = evaluateEdgeRules e s2) ->
  evaluateFlow nodes edges s1 = evaluateFlow nodes edges s2.
Proof.
  intros Hext. unfold evaluateFlow.
  assert (Hit : forall st,
    iteration s1 (outgoingEdges edges) st = iteration s2 (outgoingEdges edges) st).
  { intros st. unfold iteration, outgoingEdges.
    destruct (queue st) as [|nodeId rest]; [reflexivity|].
    case_bool_decide; [reflexivity|]. f_equal.
    apply processEdges_state_ext. intros e He. apply Hext.
    rewrite bucket_adjacency in He. now apply list_elem_of_filter in He as [_ He]. }
  assert (Hbfs : forall fuel st,
    bfs fuel s1 (outgoingEdges edges) st = bfs fuel s2 (outgoingEdges edges) st).
  { induction fuel as [|fuel IH]; intros st; simpl; rewrite Hit;
      destruct (iteration s2 (outgoingEdges edges) st); auto. }
  now rewrite Hbfs.
Qed.

Lemma evaluateEdgeRules_unmentioned edges c
    (f : SimulationState -> SimulationState) (state : SimulationState) e :
  (forall k, k <> c -> f state !! k = state !! k) ->
  c ∉ (condition <$> allRules edges) ->
  e ∈ edges ->
  evaluateEdgeRules e (f state) = evaluateEdgeRules e state.
Proof.
  intros Hf Hc He. rewrite !evaluateEdgeRules_forallb.
  assert (Hrules : forall r, r ∈ edgeRules e -> condition r <> c).
  { intros r Hr Heq. apply Hc. rewrite <- Heq. apply list_elem_of_fmap_2.
    apply elem_of_allRules. eauto. }
  induction (edgeRules e) as [|r rs IH]; [reflexivity|].
  simpl. rewrite (evaluateRule_other_key r c f state Hf) by (apply Hrules; left).
  f_equal. apply IH. intros r' Hr'. apply Hrules. now right.
Qed.

(** X15. Setting a simulation value and clearing it again leaves the context
    that clearing alone leaves, and gives back the whole state when the
    condition had no value.  After [clearSimulationValue] every rule on that
    condition passes, unless the name is one of [Object.prototype]; after
    [updateSimulationValue] with value [v], the rule "condition is [v]" passes
    unless [v] is NaN. *)
Theorem simulationValue_roundtrip (c : string) (v : RuleValue) (st : HookState) :
  s_simulationState (clearSimulationValue c (updateSimulationValue c v st))
    = s_simulationState (clearSimulationValue c st)
  /\ (s_simulationState st !! c = None ->
      clearSimulationValue c (updateSimulationValue c v st) = st)
  /\ (c ∉ objectPrototypeMembers ->
      forall rule, condition rule = c ->
        evaluateRule rule (s_simulationState (clearSimulationValue c st)) = true)
  /\ (forall i,
        evaluateRule {| rule_id := i; condition := c; operator := op_is;
                        value := v |}
                     (s_simulationState (updateSimulationValue c v st))
        = match v with
          | VNumber n => negb (isNaN n)
          | _ => true
          end).
Proof.
  split; [|split; [|split]].
  - simpl. apply delete_insert_eq.
  - intros Hnone. destruct st as [ns es sn se sim b1 b2 h]. simpl in *.
    unfold clearSimulationValue, updateSimulationValue, setSimulationState. simpl.
    f_equal. rewrite delete_insert_eq. now apply delete_id.
  - intros Hc rule <-. apply evaluateRule_absent; [|exact Hc].
    simpl. apply lookup_delete_eq.
  - intros i. unfold evaluateRule, getProperty. simpl. rewrite lookup_insert_eq.
    simpl. destruct v as [s|n|b]; simpl.
    + apply String.eqb_refl.
    + destruct n as [s|s| |s m e]; simpl; try reflexivity.
      * now destruct s.
      * now rewrite SFeqb_refl.
    + now destruct b.
Qed.

Lemma simulationValue_roundtrip_witness :
  clearSimulationValue "plan" (updateSimulationValue "plan" (VString "pro") chainState)
    = chainState
  /\ evaluateRule (roleRule "admin")
       (s_simulationState (clearSimulationValue "role" chainState)) = true.
Proof.
  destruct (simulationValue_roundtrip "plan" (VString "pro") chainState)
    as (_ & Hback & _).
  destruct (simulationValue_roundtrip "role" (VString "x") chainState)
    as (_ & _ & Hopen & _).
  split.
  - apply Hback. reflexivity.
  - apply Hopen; [compute_done | reflexivity].
Defined.

(** X16. Setting or clearing the value of a condition that no rule of the
    graph mentions leaves the flow evaluation unchanged. *)
Theorem unmentioned_condition_flow (c : string) (v : RuleValue) (st : HookState) :
  c ∉ (condition <$> allRules (s_edges st)) ->
  flowEvaluation (updateSimulationValue c v st) = flowEvaluation st
  /\ flowEvaluation (clearSimulationValue c st) = flowEvaluation st.
Proof.
  intros Hc. unfold flowEvaluation. simpl.
  destruct (s_isSimulating st); simpl; [|done]. split.
  - apply evaluateFlow_state_ext. intros e He.
    apply (evaluateEdgeRules_unmentioned (s_edges st) c (fun s => <[c := v]> s));
      [|done..]. intros k Hk. now apply lookup_insert_ne.
  - apply evaluateFlow_state_ext. intros e He.
    apply (evaluateEdgeRules_unmentioned (s_edges st) c (fun s => delete c s));
      [|done..]. intros k Hk. now apply lookup_delete_ne.
Qed.

Lemma unmentioned_condition_flow_witness :
  flowEvaluation (updateSimulationValue "plan" (VString "pro") chainState)
    = flowEvaluation chainState
  /\ flowEvaluation (clearSimulationValue "plan" chainState)
     = flowEvaluation chainState.
Proof. apply unmentioned_condition_flow. compute_done. Defined.

(** ** Values typed into the panels *)

(** X17. When the simulation panel stores a number-typed entry that does not
    read as a number, the stored value is NaN: every [is], [greater_than] and
    [less_than] rule on that condition then fails and every [is_not] rule
    passes, whatever value the rule names. *)
Theorem handleValueChange_nan (Number : string -> number) (rawValue c : string)
    (state : SimulationState) (rule : EdgeRule) :
  isNaN (Number rawValue) = true ->
  condition rule = c ->
  evaluateRule rule (<[c := handleValueChange Number rawValue type_number]> state)
    = match operator rule with
      | op_is | op_greater_than | op_less_than => false
      | op_is_not | op_other _ => true
      end.
Proof.
  intros Hnan <-. unfold evaluateRule, getProperty. rewrite lookup_insert_eq.
  cbn [handleValueChange]. destruct (Number rawValue); try discriminate.
  destruct (operator rule); simpl; try reflexivity;
    destruct (value rule) as [s|n|b]; try reflexivity;
    destruct n; reflexivity.
Qed.

Lemma handleValueChange_nan_witness :
  evaluateRule {| rule_id := "r"; condition := "age"; operator := op_is_not;
                  value := VNumber (numberOfZ 30) |}
    (<["age" := handleValueChange (fun _ => S754_nan) "abc" type_number]> ∅)
  = true.
Proof.
  apply (handleValueChange_nan (fun _ => S754_nan) "abc" "age" ∅
           {| rule_id := "r"; condition := "age"; operator := op_is_not;
              value := VNumber (numberOfZ 30) |}); reflexivity.
Defined.

(** X18. The rule forms never produce the strings "true" or "false" (they
    become booleans) and never produce NaN: a number is produced only from a
    non-empty text that [Number] reads as a number, and any other text is kept
    as the string it is. *)
Theorem parseRuleValue_cases (Number : string -> number) (trimmed : string) :
  let v := parseRuleValue Number trimmed in
  v <> VString "true" /\ v <> VString "false"
  /\ (forall n, v = VNumber n ->
        n = Number trimmed /\ isNaN n = false /\ trimmed <> "")
  /\ (forall s, v = VString s ->
        s = trimmed /\ (isNaN (Number trimmed) = true \/ trimmed = ""))
  /\ (forall b, v = VBoolean b -> trimmed = if b then "true" else "false").
Proof.
  cbn zeta. unfold parseRuleValue.
  destruct (String.eqb_spec trimmed "true") as [->|Ht].
  { split; [|split; [|split; [|split]]]; try discriminate.
    intros b Hb. now inversion Hb. }
  destruct (String.eqb_spec trimmed "false") as [->|Hf].
  { split; [|split; [|split; [|split]]]; try discriminate.
    intros b Hb. now inversion Hb. }
  destruct (isNaN (Number trimmed)) eqn:Hnan; simpl.
  - split; [|split; [|split; [|split]]]; try discriminate; try congruence.
    intros x Hx. inversion Hx. split; [reflexivity | now left].
  - destruct (String.eqb_spec trimmed "") as [->|He]; simpl.
    + split; [|split; [|split; [|split]]]; try discriminate.
      intros x Hx. inversion Hx. split; [reflexivity | now right].
    + split; [|split; [|split; [|split]]]; try discriminate.
      intros x Hx. inversion Hx. done.
Qed.

(** ** Conditions offered by the panels *)

Lemma discoverConditions_names localeCompare numberToString edges :
  name <$> discoverConditions localeCompare numberToString edges
    ≡ₚ fresh ∅ (condition <$> allRules edges).
Proof.
  rewrite discoverConditions_entries, <- list_fmap_compose. simpl.
  now rewrite list_fmap_id.
Qed.

Lemma fresh_NoDup_id l : forall seen : gset string,
  NoDup l -> (forall x, x ∈ l -> x ∉ seen) -> fresh seen l = l.
Proof.
  induction l as [|x l IH]; intros seen Hnd Hseen; [reflexivity|].
  apply NoDup_cons in Hnd as [Hx Hnd]. simpl.
  rewrite decide_False by (apply Hseen; left). f_equal.
  apply IH; [exact Hnd|]. intros y Hy. rewrite elem_of_union, elem_of_singleton.
  intros [H| ->]; [|done]. apply (Hseen y); [now right | exact H].
Qed.

Lemma length_fresh_size l :
  length (fresh ∅ l) = size (list_to_set l : gset string).
Proof.
  pose proof (fresh_measure (list_to_set l) l ∅) as Hm.
  replace (list_to_set l ∖ (∅ ∪ list_to_set l)) with (∅ : gset string) in Hm
    by set_solver.
  replace (list_to_set l ∖ ∅) with (list_to_set l : gset string) in Hm
    by set_solver.
  rewrite size_empty, Nat.add_0_r in Hm. apply Hm. intros x Hx. set_solver.
Qed.

(** X19. [discoverConditions] returns as many entries as there are distinct
    condition names in the rules, and none exactly when no edge carries a
    rule; the names it returns are pairwise distinct, so the deduplication
    that builds [allConditionNames] changes nothing. *)
Theorem conditions_count (localeCompare : string -> string -> Z)
    (numberToString : number -> string) (st : HookState) :
  let conditions := conditions localeCompare numberToString st in
  length conditions
    = size (list_to_set (condition <$> allRules (s_edges st)) : gset string)
  /\ (conditions = [] <-> forall e, e ∈ s_edges st -> edgeRules e = [])
  /\ allConditionNames localeCompare numberToString st = name <$> conditions.
Proof.
  cbn zeta. unfold allConditionNames, uniqueStrings, conditions.
  pose proof (discoverConditions_names localeCompare numberToString (s_edges st))
    as Hnames.
  assert (Hlen : length (discoverConditions localeCompare numberToString (s_edges st))
                 = length (fresh ∅ (condition <$> allRules (s_edges st)))).
  { rewrite <- (length_fmap name). now rewrite Hnames. }
  split; [|split].
  - now rewrite Hlen, length_fresh_size.
  - rewrite <- length_zero_iff_nil, Hlen, length_zero_iff_nil. split.
    + intros Hfresh e He.
      destruct (edgeRules e) as [|r rs] eqn:Hr; [reflexivity|]. exfalso.
      assert (Hin : condition r ∈ fresh ∅ (condition <$> allRules (s_edges st))).
      { apply elem_of_fresh. split; [|set_solver]. apply list_elem_of_fmap_2.
        apply elem_of_allRules. exists e. split; [done|]. rewrite Hr. left. }
      rewrite Hfresh in Hin. inversion Hin.
    + intros Hnone.
      destruct (fresh ∅ (condition <$> allRules (s_edges st))) as [|x l] eqn:E;
        [reflexivity|]. exfalso.
      assert (Hx : x ∈ fresh ∅ (condition <$> allRules (s_edges st)))
        by (rewrite E; left).
      apply elem_of_fresh in Hx as [Hx _].
      apply list_elem_of_fmap in Hx as (r & _ & Hr).
      apply elem_of_allRules in Hr as (e & He & Hr).
      rewrite (Hnone e He) in Hr. inversion Hr.
  - apply fresh_NoDup_id; [|set_solver]. rewrite Hnames. apply NoDup_fresh.
Qed.

Lemma elem_of_ruleValues rs c w :
  w ∈ ruleValues rs c <-> exists r, r ∈ rs /\ condition r = c /\ value r = w.
Proof.
  unfold ruleValues. rewrite list_elem_of_fmap. split.
  - intros (r & -> & Hr). apply list_elem_of_filter in Hr as [Hc Hr]. eauto.
  - intros (r & Hr & Hc & <-). exists r. split; [done|].
    now apply list_elem_of_filter.
Qed.

(** X20. [getValuesForCondition] returns the empty list exactly for a name
    that no rule mentions; for any other name it returns pairwise distinct
    observed values of that condition, one for each value a rule gives it. *)
Theorem getValuesForCondition_observed (localeCompare : string -> string -> Z)
    (numberToString : number -> string) (st : HookState) (c : string) :
  let values := getValuesForCondition localeCompare numberToString st c in
  let observed := observedValues (s_edges st) c in
  (values = [] <-> c ∉ (condition <$> allRules (s_edges st)))
  /\ (forall w, w ∈ observed ->
                exists v, v ∈ values /\ sameValueZero v w = true)
  /\ (forall v, v ∈ values -> exists w, w ∈ observed /\ v = normalizeZero w)
  /\ Distinct values.
Proof.
  cbn zeta. unfold getValuesForCondition, conditions.
  pose proof (discoverConditions_entries localeCompare numberToString (s_edges st))
    as Hperm.
  destruct (setAdd_fold (observedValues (s_edges st) c)) as (Hd & Hfrom & Hcover).
  cbn zeta in *.
  pose proof (sortBy_Permutation (compareValues localeCompare numberToString)
                (foldl setAdd [] (observedValues (s_edges st) c))) as Hsort.
  destruct (List.find _ _) as [s|] eqn:Hfind.
  - apply List.find_some in Hfind as [Hs Hname].
    apply list_elem_of_In in Hs. rewrite Hperm in Hs.
    apply list_elem_of_fmap in Hs as (c' & -> & Hc').
    simpl in Hname. apply String.eqb_eq in Hname as ->. simpl.
    apply elem_of_fresh in Hc' as [Hc _].
    split; [|split; [|split]].
    + split; [|done]. intros Hnil. exfalso.
      apply list_elem_of_fmap in Hc as (r & Hcr & Hr).
      destruct (Hcover (value r)) as (x & Hx & _).
      { apply elem_of_ruleValues. eauto. }
      rewrite <- Hsort, Hnil in Hx. inversion Hx.
    + intros w Hw. destruct (Hcover w Hw) as (x & Hx & Hsame).
      exists x. split; [now rewrite Hsort | done].
    + intros x Hx. rewrite Hsort in Hx. now apply Hfrom.
    + eapply Distinct_Permutation; [symmetry; exact Hsort | exact Hd].
  - assert (Hc : c ∉ (condition <$> allRules (s_edges st))).
    { intros Hc.
      assert (Hin : c ∈ (name <$> discoverConditions localeCompare numberToString
                                    (s_edges st))).
      { rewrite discoverConditions_names. apply elem_of_fresh. set_solver. }
      apply list_elem_of_fmap in Hin as (s & Hn & Hs).
      apply list_elem_of_In in Hs.
      pose proof (List.find_none _ _ Hfind s Hs) as Hne. simpl in Hne.
      apply String.eqb_neq in Hne. congruence. }
    split; [|split; [|split]].
    + done.
    + intros w Hw. unfold observedValues in Hw.
      rewrite (ruleValues_unseen _ _ Hc) in Hw. inversion Hw.
    + intros x Hx. inversion Hx.
    + constructor.
Qed.

(** ** Traces of ancestors, and traces of reachable nodes *)

(** X21. The focus node is always highlighted, and the trace of any
    highlighted node is contained in the trace of the focus: its highlighted
    nodes and edges are highlighted for the focus too. *)
Theorem traceAncestors_nested (focus : string) (edges : list FeatureEdge) :
  exists result,
    traceAncestors focus edges = Some result
    /\ focus ∈ highlightedNodes result
    /\ forall m, m ∈ highlightedNodes result ->
         exists inner,
           traceAncestors m edges = Some inner
           /\ highlightedNodes inner ⊆ highlightedNodes result
           /\ highlightedEdges inner ⊆ highlightedEdges result.
Proof.
  destruct (traceAncestors_closure focus edges) as (result & Hres & Hn & He).
  exists result. split; [exact Hres|]. split; [apply Hn, rtc_refl|].
  intros m Hm. apply Hn in Hm.
  destruct (traceAncestors_closure m edges) as (inner & Hin & Hn' & He').
  exists inner. split; [exact Hin|]. split.
  - intros x Hx. apply Hn. etrans; [now apply Hn'|exact Hm].
  - intros i Hi. apply He' in Hi as (e & Hedge & Hid & Ht). apply He.
    exists e. repeat split; try done. etrans; [exact Ht | exact Hm].
Qed.

(** X22. The trace of a node that [evaluateFlow] reports reachable always
    highlights a root of the graph: the path of passing edges that makes the
    node reachable is among its ancestors. *)
Theorem reachable_trace_has_root (nodes : list FeatureNode)
    (edges : list FeatureEdge) (state : SimulationState) :
  exists result,
    evaluateFlow nodes edges state = Some result
    /\ forall n, n ∈ reachableNodes result ->
         exists trace r,
           traceAncestors n edges = Some trace
           /\ r ∈ rootIds nodes edges
           /\ r ∈ reachableNodes result
           /\ r ∈ highlightedNodes trace.
Proof.
  destruct (evaluateFlow_result nodes edges state) as (fs & Hev & _).
  eexists. split; [exact Hev|]. intros n Hn.
  pose proof (reachableNodes_paths _ _ _ _ Hev) as Hpaths.
  apply Hpaths in Hn as (r & Hr & Hrn).
  destruct (traceAncestors_closure n edges) as (trace & Htr & Hnodes & _).
  exists trace, r. split; [exact Htr|]. split; [exact Hr|]. split.
  - apply Hpaths. exists r. split; [exact Hr | apply rtc_refl].
  - apply Hnodes. eapply rtc_subrel; [|exact Hrn].
    intros a b (e & He & Hs & Ht & _). exists e. done.
Qed.

(** ** What the schema and the rule text depend on *)

Lemma ruleValues_conditionValue rs c :
  ruleValues rs c
    = snd <$> filter (fun p => fst p = c) (conditionValue <$> rs).
Proof.
  unfold ruleValues. induction rs as [|r rs IH]; [reflexivity|].
  rewrite fmap_cons, !filter_cons. simpl.
  destruct (decide (condition r = c)); [rewrite !fmap_cons|]; now rewrite IH.
Qed.

Lemma canonMap_conditionValue rs rs' :
  conditionValue <$> rs = conditionValue <$> rs' -> canonMap rs = canonMap rs'.
Proof.
  intros Heq. unfold canonMap.
  assert (Hc : condition <$> rs = condition <$> rs').
  { change condition with (fst ∘ conditionValue).
    now rewrite !(list_fmap_compose conditionValue fst), Heq. }
  rewrite Hc. apply list_fmap_ext. intros i c _.
  now rewrite !ruleValues_conditionValue, Heq.
Qed.

Lemma conditionMap_pairs edges edges' :
  conditionValue <$> allRules edges = conditionValue <$> allRules edges' ->
  conditionMap edges = conditionMap edges'.
Proof.
  intros Heq. rewrite !conditionMap_canonMap. now apply canonMap_conditionValue.
Qed.

(** X23. The schema depends on the condition names and values of the rules,
    in order, and on nothing else: two edge lists whose rules give the same
    sequence of (condition, value) pairs have the same schema, whatever the
    operators, the rule ids and the edges the rules sit on. *)
Theorem discoverConditions_reads_pairs (localeCompare : string -> string -> Z)
    (numberToString : number -> string) (edges edges' : list FeatureEdge) :
  conditionValue <$> allRules edges = conditionValue <$> allRules edges' ->
  discoverConditions localeCompare numberToString edges
    = discoverConditions localeCompare numberToString edges'.
Proof.
  intros Heq. unfold discoverConditions. now rewrite (conditionMap_pairs _ _ Heq).
Qed.

Lemma discoverConditions_reads_pairs_witness :
  discoverConditions codeUnitCompare (integerToString (fun _ => "")) chainEdges
    = discoverConditions codeUnitCompare (integerToString (fun _ => ""))
        [mkEdge "x" "P" "Q"
           [{| rule_id := "other"; condition := "role"; operator := op_is_not;
               value := VString "admin" |}]].
Proof. apply discoverConditions_reads_pairs. reflexivity. Defined.

(** X24. The text of a rule does not tell a number from the string that
    spells it, nor a boolean from the string "true" or "false", although rule
    evaluation does: against a context that holds the number, the rule with
    the number passes [is] and the rule with the string, which reads the same,
    fails it. *)
Theorem ruleToText_ambiguous (numberToString : number -> string)
    (inheritedText : string -> string) (c i j : string) (op : RuleOperator)
    (n : number) (b : bool) (state : SimulationState) :
  let text := ruleToText numberToString inheritedText in
  let rule k o v :=
    {| rule_id := k; condition := c; operator := o; value := v |} in
  text (rule i op (VNumber n)) = text (rule j op (VString (numberToString n)))
  /\ text (rule i op (VBoolean b))
     = text (rule j op (VString (if b then "true" else "false")))
  /\ evaluateRule (rule i op_is (VNumber n)) (<[c := VNumber n]> state)
     = negb (isNaN n)
  /\ evaluateRule (rule j op_is (VString (numberToString n)))
                  (<[c := VNumber n]> state) = false.
Proof.
  cbn zeta. split; [reflexivity|]. split; [now destruct b|].
  unfold evaluateRule, getProperty. simpl. rewrite lookup_insert_eq. simpl.
  split; [|reflexivity].
  destruct n as [s|s| |s m e]; simpl; try reflexivity.
  - now destruct s.
  - now rewrite SFeqb_refl.
Qed.

(** X25. Updating a rule without giving it a new condition or value, for
    instance to change its operator only, changes neither the schema the
    simulation panel is built from nor the condition names offered for
    completion. *)
Theorem updateRule_keeps_schema (localeCompare : string -> string -> Z)
    (numberToString : number -> string) (edgeId ruleId : string)
    (updates : RuleUpdate) (st : HookState) :
  upd_condition updates = None ->
  upd_value updates = None ->
  conditions localeCompare numberToString (updateRule edgeId ruleId updates st)
    = conditions localeCompare numberToString st
  /\ allConditionNames localeCompare numberToString
       (updateRule edgeId ruleId updates st)
     = allConditionNames localeCompare numberToString st.
Proof.
  intros Hc Hv.
  assert (Hcond : conditions localeCompare numberToString
                    (updateRule edgeId ruleId updates st)
                  = conditions localeCompare numberToString st).
  { unfold conditions, discoverConditions. f_equal. f_equal.
    apply conditionMap_pairs.
    unfold updateRule, mapRulesOf, allRules. simpl.
    induction (s_edges st) as [|e eds IH]; [reflexivity|].
    rewrite !fmap_cons. simpl. rewrite !fmap_app, IH. f_equal.
    destruct (String.eqb (edge_id e) edgeId); [|reflexivity].
    change (edgeRules (setRules e ?rs)) with rs. simpl.
    rewrite <- list_fmap_compose. apply list_fmap_ext. intros k r _. simpl.
    destruct (String.eqb (rule_id r) ruleId); [|reflexivity].
    unfold conditionValue, mergeRule. simpl. now rewrite Hc, Hv. }
  split; [exact Hcond|]. unfold allConditionNames. now rewrite Hcond.
Qed.

Lemma updateRule_keeps_schema_witness :
  conditions codeUnitCompare (integerToString (fun _ => ""))
    (updateRule "e2" "r1"
       {| upd_id := None; upd_condition := None;
          upd_operator := Some op_is_not; upd_value := None |} chainState)
  = conditions codeUnitCompare (integerToString (fun _ => "")) chainState.
Proof.
  apply (updateRule_keeps_schema codeUnitCompare (integerToString (fun _ => ""))
           "e2" "r1"
           {| upd_id := None; upd_condition := None;
              upd_operator := Some op_is_not; upd_value := None |} chainState);
    reflexivity.
Defined.
